(** * lesiw.io/command: the pipeline copy engine, its error aggregate,
      the filter adapter and ReadAll

    A shallow embedding of [Copy], [copyError] (with [set], [Error],
    [Unwrap]), [cmdString], [ReadAll] and of the [filter] adapter
    ([Read], [Write], [Close], [ReadFrom]), together with the parts of Go's
    [errors], [strings] and [io] packages these functions call.

    Conventions.
    - A Go [error] interface value is an [option error]; [None] is [nil].
    - A Go [string] and a [[]byte] are byte sequences: [string] here, whose
      characters are 8-bit [ascii] values.
    - [int64] is [Z]; the additions of the source wrap around ([add64]).
    - A slice is a [list]; an index out of range panics, which the
      embedding renders as [None] in the [option] monad.
    - Streams are shared mutable Go values: they live in a [store] and the
      functions pass the store along explicitly. *)

From Stdlib Require Import ZArith String Ascii List Lia.
From stdpp Require Import base list option numbers strings.

Open Scope Z_scope.

(** ** Machine integers *)

Definition int64 := Z.

Definition wrap64 (z : Z) : int64 := (z + 2 ^ 63) mod 2 ^ 64 - 2 ^ 63.

(** [a + b] on [int64] operands. *)
Definition add64 (a b : int64) : int64 := wrap64 (a + b).

(** [written += n] for every [n] of a list, starting from [acc]. *)
Definition sum64_from (acc : int64) (ns : list int64) : int64 :=
  foldl add64 acc ns.

Definition sum64 (ns : list int64) : int64 := sum64_from 0 ns.

(** ** Package strings *)

Definition LF : ascii := "010"%char.
Definition CR : ascii := "013"%char.
Definition TAB : ascii := "009"%char.

(** The string literals of the source. *)
(** ["\n"] *)
Definition str_nl : string := String LF "".
(** ["\n\t"] *)
Definition str_nl_tab : string := String LF (String TAB "").
(** ["\n\n"] *)
Definition str_nl_nl : string := String LF (String LF "").
(** ["\r\n"] *)
Definition str_cr_lf : string := String CR (String LF "").
(** ["\n\t<success>"] *)
Definition str_success : string := str_nl_tab +:+ "<success>".

(** [strings.Join(elems, sep)] *)
Definition strings_Join (elems : list string) (sep : string) : string :=
  String.concat sep elems.

(** Replacement of the non-overlapping occurrences of a non-empty [old],
    leftmost first; [skip] counts the bytes of an occurrence still to be
    dropped. *)
Fixpoint replaceFrom (old new : string) (skip : nat) (s : string) : string :=
  match s with
  | EmptyString => EmptyString
  | String c s' =>
      match skip with
      | S k => replaceFrom old new k s'
      | O =>
          if String.prefix old s
          then new +:+ replaceFrom old new (String.length old - 1) s'
          else String c (replaceFrom old new 0 s')
      end
  end.

(** With an empty [old], Go inserts [new] before every character and at the
    end (per UTF-8 sequence; per byte here, the same on ASCII text). *)
Fixpoint insertAround (new s : string) : string :=
  match s with
  | EmptyString => new
  | String c s' => new +:+ String c (insertAround new s')
  end.

(** [strings.ReplaceAll(s, old, new)] *)
Definition strings_ReplaceAll (s old new : string) : string :=
  match old with
  | EmptyString => insertAround new s
  | String _ _ => replaceFrom old new 0 s
  end.

(** Whether byte [c] occurs in [cutset]. *)
Fixpoint inCutset (c : ascii) (cutset : string) : bool :=
  match cutset with
  | EmptyString => false
  | String d rest => Ascii.eqb c d || inCutset c rest
  end.

Definition isEmpty (s : string) : bool :=
  match s with EmptyString => true | String _ _ => false end.

(** [strings.TrimRight(s, cutset)] for an ASCII [cutset]: Go then works on
    bytes, dropping the last byte while it belongs to the cutset. *)
Fixpoint strings_TrimRight (s cutset : string) : string :=
  match s with
  | EmptyString => EmptyString
  | String c s' =>
      let t := strings_TrimRight s' cutset in
      if isEmpty t && inCutset c cutset then EmptyString else String c t
  end.

(** ** Errors *)

(** The error values of the model.
    - [errorString addr s] is what [errors.New(s)] returns: a pointer, equal
      only to itself; [addr] stands for the pointer.
    - [joinError errs] is what [errors.Join] returns when some argument is
      not nil.
    - [copyError results] is the aggregate of [Copy]; its mutex has no
      counterpart in a sequential embedding.
    [copyResult] is the struct of the same name. *)
Unset Elimination Schemes.
Inductive error : Type :=
  | errorString (addr : nat) (s : string)
  | joinError (errs : list error)
  | copyError (results : list copyResult)
with copyResult : Type :=
  | CopyResult (cmd : string) (err : option error).
Set Elimination Schemes.

Definition cmd (r : copyResult) : string :=
  match r with CopyResult c _ => c end.

Definition err (r : copyResult) : option error :=
  match r with CopyResult _ e => e end.

(** The zero value of [copyResult], as [make] fills a slice with. *)
Definition zeroResult : copyResult := CopyResult "" None.

(** One entry of [copyError.Error], the body of its loop; [msg] is
    [result.err.Error()] when [result.err] is not nil. *)
Definition part (c : string) (msg : option string) : string :=
  match msg with
  | Some errStr => c +:+ str_nl_tab +:+ strings_ReplaceAll errStr str_nl str_nl_tab
  | None => c +:+ str_success
  end.

(** The [Error] method of the three error types. [errors.Join] never
    builds a [joinError] without errors, for which Go would panic. *)
Fixpoint Error (e : error) : string :=
  match e with
  | errorString _ s => s
  | joinError errs => strings_Join (map Error errs) str_nl
  | copyError results =>
      strings_Join
        (map (fun result =>
                match result with
                | CopyResult c o =>
                    part c (match o with
                            | Some e' => Some (Error e')
                            | None => None
                            end)
                end) results)
        str_nl_nl
  end.

(** The errors of the results that are not nil, in order: the loop of
    [copyError.Unwrap]. *)
Fixpoint nonNil (results : list copyResult) : list error :=
  match results with
  | [] => []
  | CopyResult _ (Some e) :: rest => e :: nonNil rest
  | CopyResult _ None :: rest => nonNil rest
  end.

(** [Unwrap() []error], for the types that have it. *)
Definition Unwrap (e : error) : list error :=
  match e with
  | errorString _ _ => []
  | joinError errs => errs
  | copyError results => nonNil results
  end.

(** [errors.Join(errs...)] *)
Definition errors_Join (errs : list (option error)) : option error :=
  match omap id errs with
  | [] => None
  | es => Some (joinError es)
  end.

(** [err == target] on two non-nil errors: pointers are compared by
    address for [errorString]; for the two other kinds the embedding
    compares the trees, which is the identity of a value with itself. *)
Fixpoint error_eqb (a b : error) {struct a} : bool :=
  match a, b with
  | errorString p s, errorString q t => Nat.eqb p q && String.eqb s t
  | joinError xs, joinError ys =>
      (fix go (xs ys : list error) {struct xs} : bool :=
         match xs, ys with
         | [], [] => true
         | x :: xs', y :: ys' => error_eqb x y && go xs' ys'
         | _, _ => false
         end) xs ys
  | copyError xs, copyError ys =>
      (fix go (xs ys : list copyResult) {struct xs} : bool :=
         match xs, ys with
         | [], [] => true
         | CopyResult c o :: xs', CopyResult d p :: ys' =>
             String.eqb c d
             && match o, p with
                | Some x, Some y => error_eqb x y
                | None, None => true
                | _, _ => false
                end
             && go xs' ys'
         | _, _ => false
         end) xs ys
  | _, _ => false
  end.

(** The walk of [errors.Is] over the tree of [err]. *)
Fixpoint is_ (e target : error) {struct e} : bool :=
  error_eqb e target
  || match e with
     | errorString _ _ => false
     | joinError errs => existsb (fun x => is_ x target) errs
     | copyError results =>
         existsb (fun result =>
                    match result with
                    | CopyResult _ (Some x) => is_ x target
                    | CopyResult _ None => false
                    end) results
     end.

(** [errors.Is(err, target)] *)
Definition errors_Is (e target : option error) : bool :=
  match e, target with
  | Some x, Some t => is_ x t
  | None, None => true
  | _, _ => false
  end.

(** ** Streams

    The readers and writers handed to [Copy] are Go values with state.
    The embedding keeps them in a store and describes each by what it
    does: the bytes its read side delivers as a function of the bytes
    written into it so far ([output]; a source ignores its argument, a pipe
    is the identity, a command transforms), the error that ends the reads
    ([io_EOF] for a clean end), how many bytes its write side takes before
    it fails, and which optional methods its dynamic type has. *)

Record behaviour : Type := Behaviour {
  typeName : string;                (* what the verb %T prints *)
  stringer : option (string -> string);
    (* String() of a fmt.Stringer, given the bytes written so far *)
  output : string -> string;
  readErr : error;
  writeCap : option (nat * error);  (* Some (k, e): k bytes in all, then e *)
  hasWrite : bool;                  (* the type has a Write method *)
  closer : option (option error);   (* Some r: it has Close, returning r *)
  isWriterTo : bool                 (* the type has a WriteTo method *)
}.

Record object : Type := Object {
  spec : behaviour;
  input : string;     (* bytes accepted by Write so far *)
  consumed : nat;     (* bytes already delivered by Read *)
  closes : nat        (* calls of Close so far *)
}.

Definition store : Type := nat -> object.

Definition upd (σ : store) (ref : nat) (o : object) : store :=
  fun r => if Nat.eqb r ref then o else σ r.

(** [io.EOF] *)
Definition io_EOF : error := errorString 1 "EOF".

(** Modelled from the spec: the ReadOnly error. The variable [ErrReadOnly]
    is declared in a file of the package that is not at hand; it is one
    error value of its own, and only its identity matters below. *)
Definition ErrReadOnly : error := errorString 0 "read-only".

Fixpoint dropBytes (n : nat) (s : string) : string :=
  match n, s with
  | O, _ => s
  | S k, String _ s' => dropBytes k s'
  | S _, EmptyString => EmptyString
  end.

Fixpoint takeBytes (n : nat) (s : string) : string :=
  match n, s with
  | S k, String c s' => String c (takeBytes k s')
  | _, _ => EmptyString
  end.

(** The bytes the read side of an object has still to deliver. *)
Definition pending (o : object) : string :=
  dropBytes (consumed o) (output (spec o) (input o)).

Definition advance (o : object) (n : nat) : object :=
  Object (spec o) (input o) (consumed o + n)%nat (closes o).

Definition accept (o : object) (p : string) : object :=
  Object (spec o) (input o +:+ p) (consumed o) (closes o).

Definition closed (o : object) : object :=
  Object (spec o) (input o) (consumed o) (S (closes o)).

(** [Read(p)] on the object at [ref], with [k = len(p)]: the bytes put into
    [p] and the error. *)
Definition obj_Read (ref : nat) (k : nat) (σ : store)
  : string * option error * store :=
  let o := σ ref in
  match pending o with
  | EmptyString => (EmptyString, Some (readErr (spec o)), σ)
  | String _ _ as rest =>
      let got := takeBytes k rest in
      (got, None, upd σ ref (advance o (String.length got)))
  end.

(** [Write(p)] on the object at [ref]: the number of bytes taken and the
    error. *)
Definition obj_Write (ref : nat) (p : string) (σ : store)
  : nat * option error * store :=
  let o := σ ref in
  match writeCap (spec o) with
  | None => (String.length p, None, upd σ ref (accept o p))
  | Some (k, e) =>
      let room := (k - String.length (input o))%nat in
      if (String.length p <=? room)%nat
      then (String.length p, None, upd σ ref (accept o p))
      else (room, Some e, upd σ ref (accept o (takeBytes room p)))
  end.

(** [Close()] on the object at [ref], for an object that has the method. *)
Definition obj_Close (ref : nat) (σ : store) : option error * store :=
  let o := σ ref in
  (match closer (spec o) with Some r => r | None => None end,
   upd σ ref (closed o)).

(** Modelled from the spec: the type assertion [buf.(WriteBuffer)]. The
    interfaces [Buffer] and [WriteBuffer] are declared in a file of the
    package that is not at hand; a command handle is readable and may also
    be writable and closable, so the assertion holds when the dynamic type
    has [Write] and [Close] besides the methods of [Buffer]. *)
Definition isWriteBuffer (o : object) : bool :=
  hasWrite (spec o) && bool_decide (is_Some (closer (spec o))).

(** ** The filter adapter (filter.go) *)

(** [type filter struct { buf Buffer }]; the handle is a reference into the
    store. *)
Record filter : Type := Filter { buf : nat }.

(** The values behind [io.Reader], [io.Writer] and [io.ReadWriter]: a value
    of the caller, or a [*filter]. *)
Inductive stream : Type :=
  | Plain (ref : nat)
  | Filtered (f : filter).

(** [NewFilter]: [m.Command(ctx, args...)] is the backend's business and
    yields the handle [handle]. *)
Definition NewFilter (handle : nat) : stream := Filtered (Filter handle).

Definition filter_Read (f : filter) (k : nat) (σ : store)
  : string * option error * store :=
  obj_Read (buf f) k σ.

Definition filter_Write (f : filter) (p : string) (σ : store)
  : nat * option error * store :=
  if isWriteBuffer (σ (buf f))
  then obj_Write (buf f) p σ
  else (0%nat, Some ErrReadOnly, σ).

Definition filter_Close (f : filter) (σ : store) : option error * store :=
  if isWriteBuffer (σ (buf f))
  then obj_Close (buf f) σ
  else (None, σ).

(** ** Package io *)

Definition stream_Write (w : stream) (p : string) (σ : store)
  : nat * option error * store :=
  match w with
  | Plain ref => obj_Write ref p σ
  | Filtered f => filter_Write f p σ
  end.

(** The object a stream reads from: [filter.Read] delegates to its handle. *)
Definition readerRef (r : stream) : nat :=
  match r with
  | Plain ref => ref
  | Filtered f => buf f
  end.

(** [if er != EOF { err = er }] *)
Definition notEOF (er : error) : option error :=
  if error_eqb er io_EOF then None else Some er.

(** The read and write loop of [io.Copy], taken as a whole: everything the
    reader has is read and written to [w]; a write error ends the loop and
    wins, otherwise the loop ends on the reader's error, which is reported
    unless it is [io.EOF]. [Write] is not called when nothing was read. The
    bytes of a chunk that was read but not written are lost. The count is
    the number of bytes written, which no stream of the model takes beyond
    the range of [int64]. *)
Definition copyBuffer (w r : stream) (σ : store)
  : int64 * option error * store :=
  let ref := readerRef r in
  let o := σ ref in
  match pending o with
  | EmptyString => (0, notEOF (readErr (spec o)), σ)
  | String _ _ as data =>
      let σ1 := upd σ ref (advance o (String.length data)) in
      let '(nw, ew, σ2) := stream_Write w data σ1 in
      (Z.of_nat nw,
       match ew with
       | Some e => Some e
       | None => notEOF (readErr (spec o))
       end,
       σ2)
  end.

(** [io.Copy(wb, src)] for a destination without [ReadFrom], which the
    handles of the model are: with or without [WriteTo] on the source the
    bytes go through [Write]. *)
Definition io_Copy_plain (ref : nat) (src : stream) (σ : store)
  : int64 * option error * store :=
  copyBuffer (Plain ref) src σ.

(** [filter.ReadFrom] *)
Definition filter_ReadFrom (f : filter) (src : stream) (σ : store)
  : int64 * option error * store :=
  if negb (isWriteBuffer (σ (buf f)))
  then (0, Some ErrReadOnly, σ)
  else
    let '(n, err, σ1) := io_Copy_plain (buf f) src σ in
    let '(closeErr, σ2) := obj_Close (buf f) σ1 in
    let err := match err with None => closeErr | Some _ => err end in
    (n, err, σ2).

(** Whether the dynamic type of [r] has [WriteTo]; [*filter] has not. *)
Definition hasWriteTo (r : stream) (σ : store) : bool :=
  match r with
  | Plain ref => isWriterTo (spec (σ ref))
  | Filtered _ => false
  end.

(** [io.Copy(w, r)]: [r.WriteTo(w)] when the source has it, else
    [w.ReadFrom(r)] when the destination has it, else the loop. *)
Definition io_Copy (w r : stream) (σ : store)
  : int64 * option error * store :=
  if hasWriteTo r σ then copyBuffer w r σ
  else
    match w with
    | Filtered f => filter_ReadFrom f r σ
    | Plain _ => copyBuffer w r σ
    end.

(** [c, ok := w.(io.Closer)] followed by [c.Close()]: [None] when the
    assertion fails. *)
Definition stream_Close (w : stream) (σ : store)
  : option (option error * store) :=
  match w with
  | Plain ref =>
      match closer (spec (σ ref)) with
      | Some _ => Some (obj_Close ref σ)
      | None => None
      end
  | Filtered f => Some (filter_Close f σ)
  end.

(** ** The copy engine *)

(** [cmdString] *)
Definition cmdString (v : stream) (σ : store) : string :=
  match v with
  | Plain ref =>
      let o := σ ref in
      match stringer (spec o) with
      | Some str => str (input o)
      | None => "<" +:+ typeName (spec o) +:+ ">"
      end
  | Filtered _ => "<*command.filter>"
  end.

(** [copyError.set]: [e.results[offset] = result], which panics out of
    range. *)
Definition set (e : list copyResult) (offset : Z) (result : copyResult)
  : option (list copyResult) :=
  if bool_decide (0 <= offset < Z.of_nat (length e))
  then Some (<[Z.to_nat offset := result]> e)
  else None.

(** [copyError.Error] *)
Definition copyError_Error (e : list copyResult) : string :=
  Error (copyError e).

(** [copyError.Unwrap] *)
Definition copyError_Unwrap (e : list copyResult) : list error :=
  Unwrap (copyError e).

(** What one task did, kept for the statements below; the source keeps no
    such record. *)
Record event : Type := Event {
  ev_index : Z;                 (* i *)
  ev_reader : stream;           (* r *)
  ev_writer : stream;           (* w *)
  ev_start : store;             (* the store when the task started *)
  ev_n : int64;                 (* n of io.Copy *)
  ev_err : option error;        (* err of io.Copy *)
  ev_copied : store;            (* the store when io.Copy returned *)
  ev_closeErr : option error;   (* closeErr *)
  ev_done : store;              (* the store when the task ended *)
  ev_offset : Z                 (* the offset handed to set *)
}.

(** What the tasks of one [Copy] share. *)
Record copyState : Type := CopyState {
  results : list copyResult;   (* the slice of the *copyError *)
  count : list int64;          (* the values sent on channel count *)
  gerr : option error;         (* errgroup: the first non-nil error *)
  heap : store;
  history : list event         (* the tasks that ran, oldest first *)
}.

(** [r] of the loop body at index [i]. *)
Definition stageReader (src : stream) (fil : list stream) (i : Z)
  : option stream :=
  if i <? 0 then Some src else fil !! Z.to_nat i.

(** [w] of the loop body at index [i]. *)
Definition stageWriter (dst : stream) (fil : list stream) (i : Z)
  : option stream :=
  if i =? Z.of_nat (length fil) - 1 then Some dst else fil !! Z.to_nat (i + 1).

(** The function handed to [g.Go], with its deferred function. *)
Definition task (i : Z) (w r : stream) (st : copyState) : option copyState :=
  let '(n, err, σ1) := io_Copy w r (heap st) in
  let count' :=
    match err with
    | None => count st ++ [n]
    | Some _ => count st
    end in
  let '(closeErr, σ2) :=
    match stream_Close w σ1 with
    | Some (ce, σ') => (ce, σ')
    | None => (None, σ1)
    end in
  results' ← set (results st) (i + 1)
               (CopyResult (cmdString r σ2) (errors_Join [err; closeErr]));
  Some (CopyState results' count'
          (match gerr st with Some e => Some e | None => err end) σ2
          (history st
             ++ [Event i r w (heap st) n err σ1 closeErr σ2 (i + 1)])).

(** One turn of the loop of [Copy]. *)
Definition stage (dst src : stream) (fil : list stream) (i : Z)
    (st : copyState) : option copyState :=
  r ← stageReader src fil i;
  w ← stageWriter dst fil i;
  task i w r st.

(** The tasks of the stages [idx], one after the other. *)
Fixpoint runStages (dst src : stream) (fil : list stream) (idx : list Z)
    (st : copyState) : option copyState :=
  match idx with
  | [] => Some st
  | i :: rest => st' ← stage dst src fil i st; runStages dst src fil rest st'
  end.

(** [for i := -1; i < len(fil); i++] *)
Definition stageIndices (fil : list stream) : list Z :=
  seqZ (-1) (Z.of_nat (length fil) + 1).

(** [results := &copyError{results: make([]copyResult, len(fil)+1)}], the
    channels empty, no error in the group. *)
Definition initState (fil : list stream) (σ : store) : copyState :=
  CopyState (replicate (length fil + 1) zeroResult) [] None σ [].

(** The state once [g.Wait()] has returned. The tasks run in pipeline
    order, the order of the data: a stage reads what the stage before it
    wrote. Section AnyOrder below lets them end in any order. A read of
    the model ends when nothing is pending and never waits for a writer to
    close: a call whose stages would wait for one another for ever, or
    whose bytes depend on how the stages interleave, has no counterpart
    here, and nothing below is about the bytes such a call delivers. *)
Definition Copy_run (dst src : stream) (fil : list stream) (σ : store)
  : option copyState :=
  runStages dst src fil (stageIndices fil) (initState fil σ).

(** [Copy]: the bytes written, the error and the store it leaves; [None]
    is a panic. *)
Definition Copy (dst src : stream) (fil : list stream) (σ : store)
  : option (int64 * option error * store) :=
  st ← Copy_run dst src fil σ;
  let err :=
    match gerr st with
    | Some _ => Some (copyError (results st))
    | None => None
    end in
  Some (sum64 (count st), err, heap st).

(** The tasks of a call of [Copy] and the slice they filled. *)
Definition stagesOf (dst src : stream) (fil : list stream) (σ : store)
  : list event :=
  match Copy_run dst src fil σ with
  | Some st => history st
  | None => []
  end.

Definition resultsOf (dst src : stream) (fil : list stream) (σ : store)
  : list copyResult :=
  match Copy_run dst src fil σ with
  | Some st => results st
  | None => []
  end.

(** A [strings.Builder] and its zero value. *)
Definition stringsBuilder : behaviour :=
  Behaviour "*strings.Builder" (Some (fun written => written))
    (fun _ => EmptyString) io_EOF None true None false.

Definition newBuilder : object := Object stringsBuilder EmptyString 0 0.

(** [ReadAll]; [b] is where [var buf strings.Builder] is allocated. *)
Definition ReadAll (b : nat) (r : stream) (f : list stream) (σ : store)
  : option (string * option error * store) :=
  '(_, err, σ') ← Copy (Plain b) r f (upd σ b newBuilder);
  match err with
  | Some e => Some (EmptyString, Some e, σ')
  | None => Some (strings_TrimRight (input (σ' b)) str_cr_lf, None, σ')
  end.

(** ** Reading the history of a call *)

(** The entry a task stores in the slice. *)
Definition resultOf (ev : event) : copyResult :=
  CopyResult (cmdString (ev_reader ev) (ev_done ev))
    (errors_Join [ev_err ev; ev_closeErr ev]).

(** What a task sends on channel [count], if anything. *)
Definition countOf (ev : event) : option int64 :=
  match ev_err ev with
  | None => Some (ev_n ev)
  | Some _ => None
  end.

(** The error the group keeps. *)
Fixpoint firstErr (hist : list event) : option error :=
  match hist with
  | [] => None
  | ev :: rest =>
      match ev_err ev with
      | Some e => Some e
      | None => firstErr rest
      end
  end.

(** Each task starts in the store the task before it left. *)
Fixpoint chained (σ : store) (hist : list event) : Prop :=
  match hist with
  | [] => True
  | ev :: rest => ev_start ev = σ ∧ chained (ev_done ev) rest
  end.

Fixpoint lastStore (σ : store) (hist : list event) : store :=
  match hist with
  | [] => σ
  | ev :: rest => lastStore (ev_done ev) rest
  end.

(** An event is the task of its stage in [Copy dst src fil]: its streams are
    those of the loop at its index, its transfer is the [io.Copy] of the
    two, its close is the deferred one and it stores at its index plus
    one. *)
Record taskOf (dst src : stream) (fil : list stream) (ev : event) : Prop := {
  task_reader : stageReader src fil (ev_index ev) = Some (ev_reader ev);
  task_writer : stageWriter dst fil (ev_index ev) = Some (ev_writer ev);
  task_transfer :
    io_Copy (ev_writer ev) (ev_reader ev) (ev_start ev)
    = (ev_n ev, ev_err ev, ev_copied ev);
  task_close :
    match stream_Close (ev_writer ev) (ev_copied ev) with
    | Some (ce, σ') => ev_closeErr ev = ce ∧ ev_done ev = σ'
    | None => ev_closeErr ev = None ∧ ev_done ev = ev_copied ev
    end;
  task_offset : ev_offset ev = ev_index ev + 1
}.

(** The number of bytes the object behind a writer took between two
    stores. *)
Definition writerRef (w : stream) : nat :=
  match w with
  | Plain ref => ref
  | Filtered f => buf f
  end.


(** ** Streams of the package's tests *)

Definition fresh (b : behaviour) : object := Object b EmptyString 0 0.

(** [strings.NewReader(s)] *)
Definition stringsReader (s : string) : behaviour :=
  Behaviour "*strings.Reader" None (fun _ => s) io_EOF None false None true.

(** [iotest.ErrReader(e)], optionally wrapped with a name. *)
Definition errReader (e : error) (name : option string) : behaviour :=
  Behaviour "*iotest.errReader"
    (match name with Some s => Some (fun _ => s) | None => None end)
    (fun _ => EmptyString) e None false None false.

(** A reader and writer that hands on what it is given and has a name. *)
Definition namedRW (name : string) : behaviour :=
  Behaviour "namedRW" (Some (fun _ => name)) (fun written => written)
    io_EOF None true None false.

(** The two ends of an [io.Pipe] in one struct, with [Close]. *)
Definition pipeRWC : behaviour :=
  Behaviour "struct { io.Reader; io.Writer; io.Closer }" None
    (fun written => written) io_EOF None true (Some None) false.

(** [struct{io.Reader; io.Writer}{iotest.ErrReader(e), io.Discard}] *)
Definition errRW (e : error) : behaviour :=
  Behaviour "struct { io.Reader; io.Writer }" None
    (fun _ => EmptyString) e None true None false.

(** A [bytes.Buffer] used as destination. *)
Definition bytesBuffer : behaviour :=
  Behaviour "*bytes.Buffer" (Some (fun written => written))
    (fun written => written) io_EOF None true None true.

(** [io.Discard] *)
Definition discard : behaviour :=
  Behaviour "io.discard" None (fun _ => EmptyString) io_EOF None true None
    false.

(** A command handle that cannot be written to and prints [out]. *)
Definition readOnlyCmd (name out : string) : behaviour :=
  Behaviour "*mock.buffer" (Some (fun _ => name)) (fun _ => out) io_EOF None
    false None false.

(** A command handle with standard input, handing on what it is given;
    closing its input returns [closeRes]. *)
Definition catCmd (name : string) (closeRes : option error) : behaviour :=
  Behaviour "*mock.buffer" (Some (fun _ => name)) (fun written => written)
    io_EOF None true (Some closeRes) false.

(** TestCopySuccessNoError: source at 0, pipe at 1, buffer at 2. *)
Definition pipeStore : store :=
  fun ref =>
    match ref with
    | O => fresh (stringsReader "data")
    | S O => fresh pipeRWC
    | _ => fresh bytesBuffer
    end.

Definition errRead : error := errorString 10 "read failed".
Definition errProcessing : error := errorString 11 "processing failed".
Definition errClose : error := errorString 12 "close failed".

(** TestCopyErrorCollection: source at 0, the two stages at 1 and 2,
    [io.Discard] at 3. *)
Definition errStore : store :=
  fun ref =>
    match ref with
    | O => fresh (errReader errRead (Some "source reader"))
    | S O => fresh (namedRW "transform 1")
    | S (S O) => fresh (errRW errProcessing)
    | _ => fresh discard
    end.

(** A text source at 0, a writable command at 1 whose close fails, a
    read-only command at 2, buffers elsewhere. *)
Definition cmdStore : store :=
  fun ref =>
    match ref with
    | O => fresh (stringsReader "data")
    | S O => fresh (catCmd "cat" (Some errClose))
    | S (S O) => fresh (readOnlyCmd "ls" "out")
    | _ => fresh bytesBuffer
    end.

(** A writer that takes [k] bytes and then fails. *)
Definition shortWriter (k : nat) (e : error) : behaviour :=
  Behaviour "*os.File" None (fun _ => EmptyString) io_EOF (Some (k, e)) true
    None false.

Definition errFull : error := errorString 13 "no space left on device".

(** The text [data] at 0 and, elsewhere, a writer with room for two
    bytes. *)
Definition shortStore : store :=
  fun ref =>
    match ref with
    | O => fresh (stringsReader "data")
    | _ => fresh (shortWriter 2 errFull)
    end.

(** A failing source at 0, a writable command at 1 whose close fails,
    buffers elsewhere. *)
Definition failStore : store :=
  fun ref =>
    match ref with
    | O => fresh (errReader errRead (Some "source reader"))
    | S O => fresh (catCmd "cat" (Some errClose))
    | _ => fresh bytesBuffer
    end.

(** The task at position [k] of a call, for the examples. *)
Definition stageAt (dst src : stream) (fil : list stream) (σ : store)
    (k : nat) : event :=
  nth k (stagesOf dst src fil σ) (Event 0 src dst σ 0 None σ None σ 0).

(** The plain sum of a list of counts. *)
Definition sumZ (ns : list Z) : Z := foldr Z.add 0 ns.

(** The transfer of a task returned a nil error. *)
Definition transferOk (ev : event) : bool :=
  match ev_err ev with
  | None => true
  | Some _ => false
  end.

(** [strings.NewReader(s)] at 0, buffers elsewhere. *)
Definition textStore (s : string) : store :=
  fun ref =>
    match ref with
    | O => fresh (stringsReader s)
    | _ => fresh bytesBuffer
    end.


(** ** The report, in the words of the specification

    Every stage in pipeline order, as its descriptor followed by its error
    message, indented by a tab and with the lines after an embedded newline
    indented again, or by the marker of success; the entries joined by a
    blank line. *)

(** The lines of a message: the pieces between its newlines. *)
Fixpoint lines (s : string) : list string :=
  match s with
  | EmptyString => [EmptyString]
  | String c s' =>
      if Ascii.eqb c LF then EmptyString :: lines s'
      else
        match lines s' with
        | l :: ls => String c l :: ls
        | [] => [String c EmptyString]
        end
  end.

(** A message with a tab before each of its lines. *)
Definition tabIndented (msg : string) : string :=
  String.concat str_nl (map (String TAB) (lines msg)).

(** The entry of one stage: descriptor, end of line, indented message. *)
Definition reportEntry (r : copyResult) : string :=
  cmd r +:+ str_nl
  +:+ tabIndented (match err r with
                   | Some e => Error e
                   | None => "<success>"
                   end).

(** The entries with one empty line between two of them. *)
Definition report (results : list copyResult) : string :=
  String.concat (str_nl +:+ EmptyString +:+ str_nl) (map reportEntry results).

(** ** Trailing bytes of a text *)

(** Every byte of [s] belongs to [cutset]. *)
Fixpoint allInCutset (s cutset : string) : bool :=
  match s with
  | EmptyString => true
  | String c s' => inCutset c cutset && allInCutset s' cutset
  end.

(** The last byte of [s], if there is one, belongs to [cutset]. *)
Fixpoint endsInCutset (s cutset : string) : bool :=
  match s with
  | EmptyString => false
  | String c EmptyString => inCutset c cutset
  | String _ s' => endsInCutset s' cutset
  end.

(** ** Invariants and frames *)

(** A step that leaves what every object was given as it is. *)
Definition sameInputs (σ σ' : store) : Prop :=
  ∀ ref, input (σ' ref) = input (σ ref).

(** A step that leaves the count of closes of every object as it is. *)
Definition sameCloses (σ σ' : store) : Prop :=
  ∀ ref, closes (σ' ref) = closes (σ ref).

(** [w] took [moved], [n] bytes, between [σ] and [σ']; when [e] is nil,
    [moved] is all of [data]. *)
Definition took (w : stream) (σ σ' : store) (n : Z) (e : option error)
    (data : string) : Prop :=
  ∃ moved,
    input (σ' (writerRef w)) = input (σ (writerRef w)) +:+ moved
    ∧ n = Z.of_nat (String.length moved)
    ∧ (e = None → moved = data).

(** What holds of the shared state of [Copy dst src fil], started in [σ],
    when the first [k] tasks have run. *)
Record inv (dst src : stream) (fil : list stream) (σ : store) (k : nat)
    (st : copyState) : Prop := {
  inv_length : length (history st) = k;
  inv_index : map ev_index (history st) = seqZ (-1) (Z.of_nat k);
  inv_results :
    results st
    = map resultOf (history st)
      ++ replicate (length fil + 1 - k) zeroResult;
  inv_count : count st = omap countOf (history st);
  inv_gerr : gerr st = firstErr (history st);
  inv_tasks : Forall (taskOf dst src fil) (history st);
  inv_chained : chained σ (history st);
  inv_heap : heap st = lastStore σ (history st)
}.

(** What holds of the shared state of [Copy dst src fil] while the tasks of
    [todo] have yet to end, in whatever order the others ended. *)
Record shape (fil : list stream) (todo : list Z) (st : copyState) : Prop := {
  shape_length : length (results st) = (length fil + 1)%nat;
  shape_results :
    ∀ ev, ev ∈ history st →
      0 ≤ ev_offset ev
      ∧ results st !! Z.to_nat (ev_offset ev) = Some (resultOf ev);
  shape_fresh :
    ∀ ev i, ev ∈ history st → i ∈ todo → ev_offset ev ≠ i + 1;
  shape_count : count st = omap countOf (history st)
}.

(** ** Further streams for the examples *)

(** A text source without [WriteTo] at 0 (a command that prints [data]), a
    writable command at 1 whose close fails, a read-only command at 2,
    buffers elsewhere. *)
Definition plainStore : store :=
  fun ref =>
    match ref with
    | O => fresh (readOnlyCmd "printf" "data")
    | S O => fresh (catCmd "cat" (Some errClose))
    | S (S O) => fresh (readOnlyCmd "ls" "out")
    | _ => fresh bytesBuffer
    end.

(** A step that leaves the behaviour of every object as it is. *)
Definition sameSpec (σ σ' : store) : Prop :=
  ∀ ref, spec (σ' ref) = spec (σ ref).

(** What a task whose writer is [w] keeps between two stores: the behaviour
    of every object, the closes every object has had, and the count of
    closes of every object but the one behind [w]. *)
Definition writerFrame (w : stream) (σ σ' : store) : Prop :=
  sameSpec σ σ'
  ∧ (∀ x, (closes (σ x) ≤ closes (σ' x))%nat)
  ∧ (∀ x, x ≠ writerRef w → closes (σ' x) = closes (σ x)).

(** The writers of the stages of a call, in the order of the pipeline. *)
Definition writersOf (dst : stream) (fil : list stream) : list stream :=
  fil ++ [dst].

(** The readers of the stages of a call, in the order of the pipeline. *)
Definition readersOf (src : stream) (fil : list stream) : list stream :=
  src :: fil.

(** No stage but the one at [k] writes to the object at [ref]. *)
Definition soleWriter (dst : stream) (fil : list stream) (k ref : nat)
  : Prop :=
  ∀ j w, j ≠ k → writersOf dst fil !! j = Some w → writerRef w ≠ ref.

(** ** Package ctr: the helper of its tests (ctr/ctr_test.go) *)

(** Modelled from the spec: [mock.Call]. The struct is declared in package
    mock, which is not at hand; the tests build it from, and read of it,
    the one field [Args], the argument list of a command. *)
Record Call : Type := MkCall { Args : list string }.

(** [slices.Equal(a, b)] on strings. *)
Fixpoint slices_Equal (a b : list string) : bool :=
  match a, b with
  | [], [] => true
  | x :: a', y :: b' => String.eqb x y && slices_Equal a' b'
  | _, _ => false
  end.

(** [callSuffix] *)
Fixpoint callSuffix (calls : list Call) (suffix : list string) : bool :=
  match calls with
  | [] => false
  | call :: rest =>
      let args := Args call in
      if (length suffix <=? length args)%nat
      then
        if slices_Equal (drop (length args - length suffix) args) suffix
        then true
        else callSuffix rest suffix
      else callSuffix rest suffix
  end.

(** ** Package ctr: the controller CLI and the container machine

    The package runs commands through other machines of the repository
    ([command.Do], [command.Read], [command.Exec]) and asks the operating
    system for paths, file times and hashes. None of that is in the files at
    hand: the embedding takes it as given, a record of functions over a
    state of the outside world, and keeps the list of the commands a
    function issued. *)

(** The errors of the package. *)
Inductive cerror : Type :=
  | Outside (e : error)
      (* an error made elsewhere: errors.New, what a command returned *)
  | Errorf (msg : string)
      (* fmt.Errorf without the verb %w: [msg] is the text, verbs done *)
  | ErrorfW (msg : string) (inner : cerror).
      (* fmt.Errorf with %w: the text, verbs done, and the error wrapped *)

(** The [Error] method. *)
Definition cError (e : cerror) : string :=
  match e with
  | Outside x => Error x
  | Errorf msg => msg
  | ErrorfW msg _ => msg
  end.

(** [errShutdown = errors.New("machine shut down")] *)
Definition errShutdown : cerror :=
  Outside (errorString 2 "machine shut down").

(** A command handed to another machine, by the function that ran it. *)
Inductive call : Type :=
  | CallDo (args : list string)
  | CallRead (args : list string)
  | CallExec (args : list string).

(** What the package takes from outside. [notFound args] stands for
    [command.NotFound(command.Do(ctx, host, args...))] on the host of a
    controller; the three functions after it run a command on the
    controller machine [m.Machine]. *)
Record externals : Type := Externals {
  world : Type;
  notFound : list string → world → bool * world;
  command_Do : list string → world → option cerror * world;
  command_Read : list string → world → string * option cerror * world;
  command_Exec : list string → world → option cerror * world;
  filepath_Abs : string → world → string + cerror;
  filepath_Dir : string → string;
  os_Lstat : string → world → Z + cerror;
      (* info.ModTime().Unix() of os.Lstat, or its error *)
  time_Parse : string → Z + cerror;
      (* time.Parse(time.RFC3339, s) followed by Unix(), or its error *)
  sha1_hex : string → string;
      (* fmt.Sprintf("%x", sum) of the SHA-1 of the bytes *)
  strings_TrimSpace : string → string;
  fmt_q : string → string
      (* what the verb %q prints for a string *)
}.

(** The outside world and the commands issued so far, oldest first. *)
Definition sys (X : externals) : Type := world X * list call.

Definition doDo (X : externals) (args : list string) (s : sys X)
  : option cerror * sys X :=
  let '(e, w) := command_Do X args (fst s) in
  (e, (w, snd s ++ [CallDo args])).

Definition doRead (X : externals) (args : list string) (s : sys X)
  : string * option cerror * sys X :=
  let '(out, e, w) := command_Read X args (fst s) in
  (out, e, (w, snd s ++ [CallRead args])).

Definition doExec (X : externals) (args : list string) (s : sys X)
  : option cerror * sys X :=
  let '(e, w) := command_Exec X args (fst s) in
  (e, (w, snd s ++ [CallExec args])).

(** *** The controller CLI *)

(** [clis] *)
Definition clis : list (list string) :=
  [["docker"]; ["podman"]; ["nerdctl"]; ["lima"; "nerdctl"]].

(** What the verb %v prints for a slice of strings, and for [clis]. *)
Definition fmt_v_strings (l : list string) : string :=
  "[" +:+ String.concat " " l +:+ "]".

Definition fmt_v_clis (l : list (list string)) : string :=
  "[" +:+ String.concat " " (map fmt_v_strings l) +:+ "]".

(** [args] of the loop: the CLI followed by [--version]. *)
Definition probeArgs (cli : list string) : list string :=
  cli ++ ["--version"].

(** The loop of [ctlMachine.doInit] over the CLIs still to try: the CLI
    chosen ([ctrcli], nil when none is), the world it leaves, and the probes
    it ran with their answers. *)
Fixpoint findCli (X : externals) (todo : list (list string)) (w : world X)
  : list string * world X * list (list string * bool) :=
  match todo with
  | [] => ([], w, [])
  | cli :: rest =>
      let args := probeArgs cli in
      let '(missing, w1) := notFound X args w in
      if negb missing
      then (cli, w1, [(args, missing)])
      else
        let '(ctrcli, w2, probes) := findCli X rest w1 in
        (ctrcli, w2, (args, missing) :: probes)
  end.

(** [ctlMachine.doInit]: the prefix handed to [sub.Machine], or the
    error. *)
Definition ctl_doInit (X : externals) (w : world X)
  : (list string + cerror) * world X * list (list string * bool) :=
  let '(ctrcli, w1, probes) := findCli X clis w in
  if (length ctrcli =? 0)%nat
  then (inr (Errorf ("no container CLI found: " +:+ fmt_v_clis clis)),
        w1, probes)
  else (inl ctrcli, w1, probes).

(** *** Building the image of a Containerfile *)

(** [getMtime] *)
Definition getMtime (X : externals) (path : string) (w : world X)
  : Z * option cerror :=
  match os_Lstat X path w with
  | inl mtime => (mtime, None)
  | inr e => (0, Some e)
  end.

(** [buildContainer]: the image and the error. *)
Definition buildContainer (X : externals) (rpath : string) (s : sys X)
  : string * option cerror * sys X :=
  match filepath_Abs X rpath (fst s) with
  | inr e =>
      (EmptyString,
       Some (ErrorfW ("bad Containerfile path " +:+ fmt_q X rpath +:+ ": "
                      +:+ cError e) e),
       s)
  | inl path =>
      let image := sha1_hex X path in
      let '(out, insperr, s1) :=
        doRead X ["image"; "inspect"; "--format"; "{{.Created}}"; image] s in
      let build :=
        let '(e, s2) :=
          doExec X ["image"; "build"; "--file"; path; "--no-cache";
                    "--tag"; image; filepath_Dir X path] s1 in
        (image,
         match e with
         | Some e' =>
             Some (ErrorfW ("failed to build " +:+ fmt_q X path +:+ ": "
                            +:+ cError e') e')
         | None => None
         end,
         s2) in
      match getMtime X path (fst s1) with
      | (_, Some e) =>
          (image,
           Some (ErrorfW ("bad Containerfile " +:+ fmt_q X path +:+ ": "
                          +:+ cError e) e),
           s1)
      | (mtime, None) =>
          match insperr with
          | None =>
              let outStr := strings_TrimSpace X out in
              match time_Parse X outStr with
              | inr e =>
                  (image,
                   Some (Errorf ("failed to parse container timestamp "
                                 +:+ fmt_q X outStr +:+ ": " +:+ cError e)),
                   s1)
              | inl ctime =>
                  if mtime <? ctime
                  then (image, None, s1)
                  else build
              end
          | Some _ => build
          end
      end
  end.

(** *** The container machine *)

(** [type machine struct]: the name and arguments it was made with, whether
    [m.Machine] is set, what [m.once] holds (nothing before its first [Do],
    then the error [doInit] returned), the hash and the flag. The host and
    the locks have no counterpart here. *)
Record machine : Type := MkMachine {
  m_name : string;
  m_args : list string;
  m_Machine : bool;
  m_once : option (option cerror);
  m_hash : string;
  m_done : bool
}.

(** [Machine(m, name, args...)] *)
Definition Machine (name : string) (args : list string) : machine :=
  MkMachine name args false None EmptyString false.

(** [len(name) > 0 && (name[0] == '/' || name[0] == '.')] *)
Definition isPath (name : string) : bool :=
  match name with
  | EmptyString => false
  | String c _ => Ascii.eqb c "/" || Ascii.eqb c "."
  end.

(** [machine.doInit] *)
Definition machine_doInit (X : externals) (m : machine) (s : sys X)
  : option cerror * machine * sys X :=
  let m1 :=
    MkMachine (m_name m) (m_args m) true (m_once m) (m_hash m) (m_done m) in
  let '(name, berr, s1) :=
    if isPath (m_name m)
    then buildContainer X (m_name m) s
    else (m_name m, None, s) in
  match berr with
  | Some e =>
      (Some (ErrorfW ("failed to build container: " +:+ cError e) e), m1, s1)
  | None =>
      let cmd :=
        ["container"; "run"; "--rm"; "-d"; "-i"] ++ m_args m
        ++ [name; "cat"] in
      let '(out, e, s2) := doRead X cmd s1 in
      match e with
      | Some e' =>
          (Some (ErrorfW ("failed to start container: " +:+ cError e') e'),
           m1, s2)
      | None =>
          (None,
           MkMachine (m_name m1) (m_args m1) (m_Machine m1) (m_once m1)
             (strings_TrimSpace X out) (m_done m1),
           s2)
      end
  end.

(** [machine.init]; [m.once.Do(f)] runs [f] the first time and returns what
    it returned then ever after. *)
Definition machine_init (X : externals) (m : machine) (s : sys X)
  : option cerror * machine * sys X :=
  if m_done m then (Some errShutdown, m, s)
  else
    match m_once m with
    | Some r => (r, m, s)
    | None =>
        let '(r, m1, s1) := machine_doInit X m s in
        (r,
         MkMachine (m_name m1) (m_args m1) (m_Machine m1) (Some r)
           (m_hash m1) (m_done m1),
         s1)
    end.

(** What [machine.Command] returns: [command.Fail(err)] or
    [newCmd(m, ctx, arg...)]. *)
Inductive buffer : Type :=
  | Fail (e : cerror)
  | newCmd (arg : list string).

(** [machine.Command] *)
Definition machine_Command (X : externals) (m : machine) (arg : list string)
    (s : sys X) : buffer * machine * sys X :=
  let '(e, m1, s1) := machine_init X m s in
  match e with
  | Some e' => (Fail e', m1, s1)
  | None =>
      if m_done m1 then (Fail errShutdown, m1, s1)
      else (newCmd arg, m1, s1)
  end.

(** [machine.Shutdown] *)
Definition machine_Shutdown (X : externals) (m : machine) (s : sys X)
  : option cerror * machine * sys X :=
  let m1 :=
    MkMachine (m_name m) (m_args m) (m_Machine m) (m_once m) (m_hash m)
      true in
  if negb (m_Machine m1) then (None, m1, s)
  else
    let '(e, s1) := doDo X ["container"; "rm"; "-f"; m_hash m1] s in
    (e, m1, s1).

(** A use of a machine: calls of [Command] and [Shutdown], one after the
    other, and what each returned. *)
Inductive op : Type :=
  | OpCommand (arg : list string)
  | OpShutdown.

Inductive outcome : Type :=
  | Returned (b : buffer)
  | Stopped (e : option cerror).

Fixpoint run (X : externals) (ops : list op) (m : machine) (s : sys X)
  : list outcome * machine * sys X :=
  match ops with
  | [] => ([], m, s)
  | OpCommand arg :: rest =>
      let '(b, m1, s1) := machine_Command X m arg s in
      let '(outs, m2, s2) := run X rest m1 s1 in
      (Returned b :: outs, m2, s2)
  | OpShutdown :: rest =>
      let '(e, m1, s1) := machine_Shutdown X m s in
      let '(outs, m2, s2) := run X rest m1 s1 in
      (Stopped e :: outs, m2, s2)
  end.

(** The calls of [Shutdown] in a use of a machine. *)
Definition isShutdown (o : op) : bool :=
  match o with
  | OpShutdown => true
  | OpCommand _ => false
  end.

Definition shutdowns (ops : list op) : nat :=
  length (List.filter isShutdown ops).

(** The command that starts the container. *)
Definition isStart (c : call) : bool :=
  match c with
  | CallRead ("container" :: "run" :: _) => true
  | _ => false
  end.

(** The starts a machine may still make: one before the first [Do] of
    [m.once], none after. *)
Definition budget (m : machine) : nat :=
  match m_once m with
  | Some _ => 0%nat
  | None => 1%nat
  end.

(** The command that removes the container [hash]. *)
Definition rmCall (hash : string) : call :=
  CallDo ["container"; "rm"; "-f"; hash].

(** [strings.TrimLeft(s, cutset)] for an ASCII [cutset]. *)
Fixpoint strings_TrimLeft (s cutset : string) : string :=
  match s with
  | EmptyString => EmptyString
  | String c s' =>
      if inCutset c cutset then strings_TrimLeft s' cutset else s
  end.

(** The white space of ASCII: tab, line feed, vertical tab, form feed,
    carriage return, space. *)
Definition asciiSpace : string :=
  String TAB (String LF (String "011" (String "012" (String CR " ")))).

(** An outside world for the examples. Its state counts the commands run.
    The command [docker] is missing and every other command succeeds;
    [Read] prints a hash and a newline; the Containerfile (time 200) is
    newer than the image (time 100); [TrimSpace] is the one of ASCII
    texts. *)
Definition testExternals : externals :=
  Externals nat
    (fun args w =>
       (match args with "docker" :: _ => true | _ => false end, S w))
    (fun _ w => (None, S w))
    (fun _ w => ("abc123" +:+ str_nl, None, S w))
    (fun _ w => (None, S w))
    (fun p _ => inl ("/work/" +:+ p))
    (fun _ => "/work")
    (fun _ _ => inl 200)
    (fun _ => inl 100)
    (fun p => "da39a3ee")
    (fun t => strings_TrimLeft (strings_TrimRight t asciiSpace) asciiSpace)
    (fun t => t).

(** * Properties *)

(** ** The history of a run *)

Lemma firstErr_app hist ev :
  firstErr (hist ++ [ev])
  = match firstErr hist with Some e => Some e | None => ev_err ev end.
Proof.
  induction hist as [|ev' hist IH]; simpl.
  - by destruct (ev_err ev).
  - by destruct (ev_err ev').
Qed.

Lemma chained_app σ hist ev :
  chained σ hist → ev_start ev = lastStore σ hist → chained σ (hist ++ [ev]).
Proof.
  revert σ. induction hist as [|ev' hist IH]; simpl; intros σ.
  - auto.
  - intros [Hs Hc] Hl. split; [done|]. by apply IH.
Qed.

Lemma lastStore_app σ hist ev : lastStore σ (hist ++ [ev]) = ev_done ev.
Proof. revert σ. induction hist as [|ev' hist IH]; simpl; auto. Qed.

Lemma omap_countOf_app hist ev :
  omap countOf (hist ++ [ev])
  = omap countOf hist
    ++ match ev_err ev with None => [ev_n ev] | Some _ => [] end.
Proof.
  rewrite omap_app. f_equal. unfold countOf. simpl.
  by destruct (ev_err ev).
Qed.

Section Run.
Variables (dst src : stream) (fil : list stream) (σ : store).

Lemma inv_init : inv dst src fil σ 0 (initState fil σ).
Proof.
  split; simpl; try done.
  by rewrite Nat.sub_0_r.
Qed.

Lemma stageReader_in_range (k : nat) :
  (k ≤ length fil)%nat →
  ∃ r, stageReader src fil (Z.of_nat k - 1) = Some r.
Proof.
  intros Hk. unfold stageReader.
  destruct (Z.ltb_spec (Z.of_nat k - 1) 0) as [Hlt|Hge]; [by eexists|].
  apply lookup_lt_is_Some_2. lia.
Qed.

Lemma stageWriter_in_range (k : nat) :
  (k ≤ length fil)%nat →
  ∃ w, stageWriter dst fil (Z.of_nat k - 1) = Some w.
Proof.
  intros Hk. unfold stageWriter.
  destruct (Z.eqb_spec (Z.of_nat k - 1) (Z.of_nat (length fil) - 1));
    [by eexists|].
  apply lookup_lt_is_Some_2. lia.
Qed.

Lemma stage_step (k : nat) st :
  (k ≤ length fil)%nat → inv dst src fil σ k st →
  ∃ st',
    stage dst src fil (Z.of_nat k - 1) st = Some st'
    ∧ inv dst src fil σ (S k) st'.
Proof.
  intros Hk [Hlength Hindex Hresults Hcount Hgerr Htasks Hchained Hheap].
  destruct (stageReader_in_range k Hk) as [r Hr].
  destruct (stageWriter_in_range k Hk) as [w Hw].
  unfold stage. rewrite Hr, Hw. simpl. unfold task.
  destruct (io_Copy w r (heap st)) as [[n e] σ1] eqn:Hcopy.
  set (closing := match stream_Close w σ1 with
                  | Some (ce, σ') => (ce, σ')
                  | None => (None, σ1)
                  end).
  destruct closing as [closeErr σ2] eqn:Hclose. subst closing.
  assert (Hlen : length (results st) = (length fil + 1)%nat).
  { rewrite Hresults, length_app, length_map, length_replicate, Hlength.
    lia. }
  unfold set. rewrite bool_decide_eq_true_2 by (rewrite Hlen; lia).
  simpl. eexists. split; [reflexivity|].
  replace (Z.to_nat (Z.of_nat k - 1 + 1)) with k by lia.
  split; simpl.
  - rewrite length_app, Hlength. simpl. lia.
  - rewrite map_app, Hindex. simpl.
    replace (Z.of_nat (S k)) with (Z.of_nat k + 1) by lia.
    rewrite seqZ_app by lia. f_equal.
    rewrite seqZ_cons by lia. rewrite seqZ_nil by lia. f_equal. lia.
  - rewrite Hresults, map_app. simpl.
    rewrite <- (assoc_L (++)). simpl.
    replace (length fil + 1 - k)%nat with (S (length fil - k)) by lia.
    simpl.
    replace (length fil + 1 - S k)%nat with (length fil - k)%nat by lia.
    rewrite insert_app_r_alt by (rewrite length_map, Hlength; lia).
    rewrite length_map, Hlength, Nat.sub_diag. reflexivity.
  - rewrite omap_countOf_app. simpl. rewrite <- Hcount.
    destruct e; [by rewrite (right_id_L [] (++))|done].
  - rewrite firstErr_app. simpl. by rewrite <- Hgerr.
  - apply Forall_app. split; [done|].
    apply Forall_singleton. split; simpl; try done.
    destruct (stream_Close w σ1) as [[ce σ']|]; by inversion Hclose.
  - by apply chained_app.
  - by rewrite lastStore_app.
Qed.

Lemma run_from (m k : nat) st :
  (k + m = length fil + 1)%nat → inv dst src fil σ k st →
  ∃ st',
    runStages dst src fil (seqZ (Z.of_nat k - 1) (Z.of_nat m)) st = Some st'
    ∧ inv dst src fil σ (length fil + 1) st'.
Proof.
  revert k st. induction m as [|m IH]; intros k st Hkm Hinv.
  - rewrite seqZ_nil by lia. simpl. exists st. split; [done|].
    by replace (length fil + 1)%nat with k by lia.
  - rewrite seqZ_cons by lia. simpl.
    destruct (stage_step k st) as (st1 & Hst & Hinv1); [lia|done|].
    rewrite Hst. simpl.
    replace (Z.succ (Z.of_nat k - 1)) with (Z.of_nat (S k) - 1) by lia.
    replace (Z.pred (Z.of_nat (S m))) with (Z.of_nat m) by lia.
    apply IH; [lia|done].
Qed.

(** [Copy] does not panic: every index it uses is in range. The state
    after [g.Wait()] satisfies the invariant for all its tasks. *)
Lemma Copy_run_inv :
  ∃ st,
    Copy_run dst src fil σ = Some st
    ∧ inv dst src fil σ (length fil + 1) st.
Proof.
  unfold Copy_run, stageIndices.
  replace (Z.of_nat (length fil) + 1) with (Z.of_nat (length fil + 1)) by lia.
  change (-1) with (Z.of_nat 0 - 1).
  apply run_from; [lia|apply inv_init].
Qed.
End Run.

(** The history and the slice of a call, read through the invariant. *)
Lemma Copy_run_stages dst src fil σ :
  ∃ st,
    Copy_run dst src fil σ = Some st
    ∧ inv dst src fil σ (length fil + 1) st
    ∧ stagesOf dst src fil σ = history st
    ∧ resultsOf dst src fil σ = map resultOf (history st).
Proof.
  destruct (Copy_run_inv dst src fil σ) as (st & Hrun & Hinv).
  exists st. unfold stagesOf, resultsOf. rewrite Hrun.
  split; [done|]. split; [done|]. split; [done|].
  rewrite (inv_results _ _ _ _ _ _ Hinv), Nat.sub_diag. simpl.
  by rewrite (right_id_L [] (++)).
Qed.

Lemma Copy_unfold dst src fil σ :
  let hist := stagesOf dst src fil σ in
  Copy dst src fil σ
  = Some (sum64 (omap countOf hist),
          match firstErr hist with
          | Some _ => Some (copyError (resultsOf dst src fil σ))
          | None => None
          end,
          lastStore σ hist).
Proof.
  destruct (Copy_run_stages dst src fil σ) as (st & Hrun & Hinv & Hst & Hrs).
  simpl. unfold Copy. rewrite Hrun. simpl.
  rewrite Hst, Hrs.
  rewrite <- (inv_count _ _ _ _ _ _ Hinv), <- (inv_gerr _ _ _ _ _ _ Hinv),
    <- (inv_heap _ _ _ _ _ _ Hinv).
  destruct (gerr st); [|done].
  do 3 f_equal.
  rewrite (inv_results _ _ _ _ _ _ Hinv), Nat.sub_diag. simpl.
  by rewrite (right_id_L [] (++)).
Qed.

Lemma stagesOf_length dst src fil σ :
  length (stagesOf dst src fil σ) = (length fil + 1)%nat.
Proof.
  destruct (Copy_run_stages dst src fil σ) as (st & _ & Hinv & Hst & _).
  rewrite Hst. apply (inv_length _ _ _ _ _ _ Hinv).
Qed.

Lemma stagesOf_tasks dst src fil σ :
  Forall (taskOf dst src fil) (stagesOf dst src fil σ).
Proof.
  destruct (Copy_run_stages dst src fil σ) as (st & _ & Hinv & Hst & _).
  rewrite Hst. apply (inv_tasks _ _ _ _ _ _ Hinv).
Qed.

Lemma stagesOf_chained dst src fil σ : chained σ (stagesOf dst src fil σ).
Proof.
  destruct (Copy_run_stages dst src fil σ) as (st & _ & Hinv & Hst & _).
  rewrite Hst. apply (inv_chained _ _ _ _ _ _ Hinv).
Qed.

Lemma stagesOf_index dst src fil σ :
  map ev_index (stagesOf dst src fil σ)
  = seqZ (-1) (Z.of_nat (length fil + 1)).
Proof.
  destruct (Copy_run_stages dst src fil σ) as (st & _ & Hinv & Hst & _).
  rewrite Hst. apply (inv_index _ _ _ _ _ _ Hinv).
Qed.

Lemma resultsOf_stages dst src fil σ :
  resultsOf dst src fil σ = map resultOf (stagesOf dst src fil σ).
Proof.
  destruct (Copy_run_stages dst src fil σ) as (st & _ & _ & Hst & Hrs).
  by rewrite Hst, Hrs.
Qed.

(** The error [Copy] returns, when it returns one, is its aggregate. *)
Lemma Copy_error_aggregate dst src fil σ n e σ' :
  Copy dst src fil σ = Some (n, Some e, σ') →
  e = copyError (resultsOf dst src fil σ).
Proof.
  intros HC. rewrite Copy_unfold in HC. cbv zeta in HC.
  destruct (firstErr (stagesOf dst src fil σ)); [|done].
  by injection HC as _ <- _.
Qed.

(** ** Errors *)

Lemma error_eqb_refl : ∀ e, error_eqb e e = true.
Proof.
  fix IH 1. intros [p s|errs|rs]; simpl.
  - by rewrite Nat.eqb_refl, String.eqb_refl.
  - induction errs as [|x xs IHxs]; [done|]. by rewrite IH, IHxs.
  - induction rs as [|[c o] rs IHrs]; [done|].
    rewrite String.eqb_refl, IHrs. destruct o as [x|]; [|done].
    by rewrite IH.
Qed.

Lemma is_refl e : is_ e e = true.
Proof. destruct e; cbn [is_]; by rewrite error_eqb_refl. Qed.

Lemma is_joinError errs x target :
  x ∈ errs → is_ x target = true → is_ (joinError errs) target = true.
Proof.
  intros Hin Hx. cbn [is_]. apply orb_true_iff. right.
  apply existsb_exists. exists x. split; [by apply list_elem_of_In|done].
Qed.

Lemma is_copyError results c x target :
  CopyResult c (Some x) ∈ results → is_ x target = true →
  is_ (copyError results) target = true.
Proof.
  intros Hin Hx. cbn [is_]. apply orb_true_iff. right.
  apply existsb_exists. exists (CopyResult c (Some x)).
  split; [by apply list_elem_of_In|done].
Qed.

(** [errors.Join] keeps every argument that is not nil. *)
Lemma errors_Join_two (a b : option error) :
  errors_Join [a; b]
  = match a, b with
    | Some x, Some y => Some (joinError [x; y])
    | Some x, None => Some (joinError [x])
    | None, Some y => Some (joinError [y])
    | None, None => None
    end.
Proof. by destruct a, b. Qed.

Lemma errors_Join_Is_l x b :
  errors_Is (errors_Join [Some x; b]) (Some x) = true.
Proof.
  rewrite errors_Join_two.
  destruct b; cbn [errors_Is];
    (apply is_joinError with x; [repeat constructor|apply is_refl]).
Qed.

Lemma errors_Join_Is_r a y :
  errors_Is (errors_Join [a; Some y]) (Some y) = true.
Proof.
  rewrite errors_Join_two.
  destruct a; cbn [errors_Is];
    (apply is_joinError with y; [repeat constructor|apply is_refl]).
Qed.

Lemma nonNil_map_resultOf hist :
  nonNil (map resultOf hist)
  = omap (fun ev => errors_Join [ev_err ev; ev_closeErr ev]) hist.
Proof.
  induction hist as [|ev hist IH]; [done|]. simpl.
  destruct (errors_Join [ev_err ev; ev_closeErr ev]); by rewrite IH.
Qed.

(** ** Byte strings *)

Lemma append_nil_l s : EmptyString +:+ s = s.
Proof. reflexivity. Qed.

Lemma append_cons c s t : String c s +:+ t = String c (s +:+ t).
Proof. reflexivity. Qed.

Lemma append_nil_r s : s +:+ EmptyString = s.
Proof.
  induction s as [|c s IH]; [done|]. by rewrite append_cons, IH.
Qed.

Lemma append_assoc s t u : (s +:+ t) +:+ u = s +:+ (t +:+ u).
Proof.
  induction s as [|c s IH]; [done|]. by rewrite !append_cons, IH.
Qed.


Lemma length_takeBytes n s :
  (n ≤ String.length s)%nat → String.length (takeBytes n s) = n.
Proof.
  revert s. induction n as [|n IH]; intros [|c s]; simpl; try lia.
  intros Hn. rewrite IH; lia.
Qed.

(** ** Stores *)

Lemma upd_eq σ ref o : upd σ ref o ref = o.
Proof. unfold upd. by rewrite Nat.eqb_refl. Qed.

Lemma upd_ne σ ref o ref' : ref' ≠ ref → upd σ ref o ref' = σ ref'.
Proof.
  intros Hne. unfold upd.
  destruct (Nat.eqb_spec ref' ref); [done|done].
Qed.


Lemma sameInputs_upd σ ref o :
  input o = input (σ ref) → sameInputs σ (upd σ ref o).
Proof.
  intros Ho ref'. destruct (decide (ref' = ref)) as [->|Hne].
  - by rewrite upd_eq.
  - by rewrite upd_ne.
Qed.

Lemma obj_Close_closes ref σ :
  closes (snd (obj_Close ref σ) ref) = S (closes (σ ref))
  ∧ sameInputs σ (snd (obj_Close ref σ)).
Proof.
  unfold obj_Close. simpl. rewrite upd_eq. split; [done|].
  by apply sameInputs_upd.
Qed.

Lemma stream_Close_sameInputs w σ ce σ' :
  stream_Close w σ = Some (ce, σ') → sameInputs σ σ'.
Proof.
  destruct w as [ref|f]; simpl.
  - destruct (closer (spec (σ ref))); [|done].
    unfold obj_Close. intros [= _ <-]. by apply sameInputs_upd.
  - unfold filter_Close. destruct (isWriteBuffer (σ (buf f))).
    + unfold obj_Close. intros [= _ <-]. by apply sameInputs_upd.
    + by intros [= _ <-].
Qed.

(** ** What a transfer moves *)


Lemma obj_Write_took ref p σ nw e σ' :
  obj_Write ref p σ = (nw, e, σ') → took (Plain ref) σ σ' (Z.of_nat nw) e p.
Proof.
  unfold obj_Write.
  destruct (writeCap (spec (σ ref))) as [[k e']|].
  - destruct (Nat.leb_spec (String.length p) (k - String.length (input (σ ref)))).
    + intros [= <- <- <-]. exists p. simpl. by rewrite upd_eq.
    + intros [= <- <- <-].
      exists (takeBytes (k - String.length (input (σ ref))) p).
      simpl. rewrite upd_eq. split; [done|]. split; [|done].
      rewrite length_takeBytes; [done|lia].
  - intros [= <- <- <-]. exists p. simpl. by rewrite upd_eq.
Qed.

Lemma stream_Write_took w p σ nw e σ' :
  stream_Write w p σ = (nw, e, σ') → took w σ σ' (Z.of_nat nw) e p.
Proof.
  destruct w as [ref|f]; simpl; [apply obj_Write_took|].
  unfold filter_Write. destruct (isWriteBuffer (σ (buf f))).
  - apply (obj_Write_took (buf f)).
  - intros [= <- <- <-]. exists EmptyString. simpl.
    by rewrite append_nil_r.
Qed.

Lemma copyBuffer_took w r σ n e σ' :
  copyBuffer w r σ = (n, e, σ') →
  took w σ σ' n e (pending (σ (readerRef r))).
Proof.
  unfold copyBuffer.
  destruct (pending (σ (readerRef r))) as [|c rest] eqn:Hpending.
  - intros [= <- <- <-]. exists EmptyString. by rewrite append_nil_r.
  - set (data := String c rest).
    set (σ1 := upd σ (readerRef r) (advance (σ (readerRef r)) (String.length data))).
    destruct (stream_Write w data σ1) as [[nw ew] σ2] eqn:Hwrite.
    intros [= <- <- <-].
    destruct (stream_Write_took _ _ _ _ _ _ Hwrite) as (moved & Hin & Hn & Hall).
    exists moved. split; [|split; [done|]].
    + rewrite Hin. f_equal.
      by apply (sameInputs_upd σ (readerRef r)).
    + destruct ew; [done|]. intros _. by apply Hall.
Qed.

Lemma io_Copy_plain_eq ref r σ : io_Copy (Plain ref) r σ = io_Copy_plain ref r σ.
Proof. unfold io_Copy, io_Copy_plain. by destruct (hasWriteTo r σ). Qed.

Lemma filter_ReadFrom_took f r σ n e σ' :
  filter_ReadFrom f r σ = (n, e, σ') →
  took (Filtered f) σ σ' n e (pending (σ (readerRef r))).
Proof.
  unfold filter_ReadFrom. destruct (isWriteBuffer (σ (buf f))); simpl.
  - unfold io_Copy_plain.
    destruct (copyBuffer (Plain (buf f)) r σ) as [[n1 e1] σ1] eqn:Hcopy.
    destruct (obj_Close (buf f) σ1) as [closeErr σ2] eqn:Hclose.
    intros [= <- <- <-].
    destruct (copyBuffer_took _ _ _ _ _ _ Hcopy) as (moved & Hin & Hn & Hall).
    exists moved. simpl in *. split; [|split; [done|]].
    + rewrite <- Hin.
      replace σ2 with (snd (obj_Close (buf f) σ1)) by (by rewrite Hclose).
      apply obj_Close_closes.
    + destruct e1; [done|]. intros _. by apply Hall.
  - intros [= <- <- <-]. exists EmptyString. by rewrite append_nil_r.
Qed.

(** Whatever path [io.Copy] takes, its count is the number of bytes the
    writer took, and on success these are all the bytes the reader had. *)
Lemma io_Copy_took w r σ n e σ' :
  io_Copy w r σ = (n, e, σ') → took w σ σ' n e (pending (σ (readerRef r))).
Proof.
  unfold io_Copy. destruct (hasWriteTo r σ); [apply copyBuffer_took|].
  destruct w as [ref|f]; [apply copyBuffer_took|apply filter_ReadFrom_took].
Qed.



Lemma sameCloses_upd σ ref o :
  closes o = closes (σ ref) → sameCloses σ (upd σ ref o).
Proof.
  intros Ho ref'. destruct (decide (ref' = ref)) as [->|Hne].
  - by rewrite upd_eq.
  - by rewrite upd_ne.
Qed.

Lemma sameCloses_trans σ1 σ2 σ3 :
  sameCloses σ1 σ2 → sameCloses σ2 σ3 → sameCloses σ1 σ3.
Proof. intros H12 H23 ref. by rewrite H23, H12. Qed.

Lemma obj_Write_sameCloses ref p σ nw e σ' :
  obj_Write ref p σ = (nw, e, σ') → sameCloses σ σ'.
Proof.
  unfold obj_Write.
  destruct (writeCap (spec (σ ref))) as [[k e']|];
    [destruct (_ <=? _)%nat|]; intros [= _ _ <-]; by apply sameCloses_upd.
Qed.

Lemma copyBuffer_plain_sameCloses ref r σ n e σ' :
  copyBuffer (Plain ref) r σ = (n, e, σ') → sameCloses σ σ'.
Proof.
  unfold copyBuffer.
  destruct (pending (σ (readerRef r))) as [|c rest].
  - by intros [= _ _ <-].
  - simpl.
    match goal with
    | |- context [obj_Write ref ?p ?s] =>
        destruct (obj_Write ref p s) as [[nw ew] σ2] eqn:Hwrite
    end.
    intros [= _ _ <-].
    eapply sameCloses_trans; [|by eapply obj_Write_sameCloses].
    by apply sameCloses_upd.
Qed.

(** ** The filter adapter *)

(** C9. [Write] on a filter whose command handle cannot be written to
    returns zero bytes and the ReadOnly error, and touches nothing. *)
Theorem filter_Write_read_only (f : filter) (p : string) (σ : store) :
  isWriteBuffer (σ (buf f)) = false →
  filter_Write f p σ = (0%nat, Some ErrReadOnly, σ).
Proof. intros Hro. unfold filter_Write. by rewrite Hro. Qed.

Lemma filter_Write_read_only_witness :
  isWriteBuffer (cmdStore (buf (Filter 2))) = false
  ∧ filter_Write (Filter 2) "data" cmdStore
    = (0%nat, Some ErrReadOnly, cmdStore).
Proof.
  split; [reflexivity|].
  apply (filter_Write_read_only (Filter 2) "data" cmdStore). reflexivity.
Defined.

(** C7. [ReadFrom] on a filter whose command handle can be written to runs
    [io.Copy] from the source into the handle and then closes the handle,
    once; it returns the count of the copy, the error of the copy when there
    is one and else the error of the close. The handle took as many bytes as
    the count says, and when the copy succeeded these are all the bytes the
    source had. *)
Theorem filter_ReadFrom_writable (f : filter) (src : stream) (σ : store) :
  isWriteBuffer (σ (buf f)) = true →
  ∃ n err σ1 closeErr σ2 moved,
    io_Copy (Plain (buf f)) src σ = (n, err, σ1)
    ∧ obj_Close (buf f) σ1 = (closeErr, σ2)
    ∧ filter_ReadFrom f src σ
      = (n, match err with Some e => Some e | None => closeErr end, σ2)
    ∧ closes (σ2 (buf f)) = S (closes (σ (buf f)))
    ∧ input (σ2 (buf f)) = input (σ (buf f)) +:+ moved
    ∧ n = Z.of_nat (String.length moved)
    ∧ (err = None → moved = pending (σ (readerRef src))).
Proof.
  intros Hwb.
  destruct (io_Copy (Plain (buf f)) src σ) as [[n e] σ1] eqn:Hcopy.
  destruct (obj_Close (buf f) σ1) as [closeErr σ2] eqn:Hclose.
  destruct (io_Copy_took _ _ _ _ _ _ Hcopy) as (moved & Hin & Hn & Hall).
  exists n, e, σ1, closeErr, σ2, moved.
  rewrite io_Copy_plain_eq in Hcopy.
  assert (Hσ2 : σ2 = snd (obj_Close (buf f) σ1)) by (by rewrite Hclose).
  destruct (obj_Close_closes (buf f) σ1) as [Hcl Hsame].
  repeat split; try done.
  - unfold filter_ReadFrom. rewrite Hwb. cbn [negb]. rewrite Hcopy, Hclose.
    by destruct e.
  - rewrite Hσ2, Hcl. f_equal.
    by apply (copyBuffer_plain_sameCloses _ _ _ _ _ _ Hcopy).
  - rewrite Hσ2, Hsame. apply Hin.
Qed.

Lemma filter_ReadFrom_writable_witness :
  isWriteBuffer (cmdStore (buf (Filter 1))) = true
  ∧ ∃ n err σ1 closeErr σ2 moved,
      io_Copy (Plain (buf (Filter 1))) (Plain 0) cmdStore = (n, err, σ1)
      ∧ obj_Close (buf (Filter 1)) σ1 = (closeErr, σ2)
      ∧ filter_ReadFrom (Filter 1) (Plain 0) cmdStore
        = (n, match err with Some e => Some e | None => closeErr end, σ2)
      ∧ closes (σ2 (buf (Filter 1))) = S (closes (cmdStore (buf (Filter 1))))
      ∧ input (σ2 (buf (Filter 1)))
        = input (cmdStore (buf (Filter 1))) +:+ moved
      ∧ n = Z.of_nat (String.length moved)
      ∧ (err = None → moved = pending (cmdStore (readerRef (Plain 0)))).
Proof.
  split; [reflexivity|].
  apply (filter_ReadFrom_writable (Filter 1) (Plain 0) cmdStore). reflexivity.
Defined.

(** ** The stages of a call *)

Lemma map_fmap {A B} (f : A → B) (l : list A) : map f l = f <$> l.
Proof. reflexivity. Qed.

(** The task at position [k] of the pipeline. *)
Lemma stagesOf_lookup dst src fil σ (k : nat) :
  (k ≤ length fil)%nat →
  ∃ ev,
    stagesOf dst src fil σ !! k = Some ev
    ∧ ev_index ev = Z.of_nat k - 1
    ∧ taskOf dst src fil ev.
Proof.
  intros Hk.
  destruct (lookup_lt_is_Some_2 (stagesOf dst src fil σ) k) as [ev Hev].
  { rewrite stagesOf_length. lia. }
  exists ev. split; [done|]. split.
  - pose proof (stagesOf_index dst src fil σ) as Hidx.
    assert (Hi : map ev_index (stagesOf dst src fil σ) !! k
                 = Some (ev_index ev)).
    { by rewrite map_fmap, list_lookup_fmap, Hev. }
    rewrite Hidx in Hi. apply lookup_seqZ in Hi. lia.
  - eapply Forall_lookup_1; [apply stagesOf_tasks|done].
Qed.

Lemma stagesOf_position dst src fil σ (k : nat) ev :
  stagesOf dst src fil σ !! k = Some ev →
  (k ≤ length fil)%nat ∧ ev_index ev = Z.of_nat k - 1 ∧ taskOf dst src fil ev.
Proof.
  intros Hev.
  assert (Hk : (k ≤ length fil)%nat).
  { apply lookup_lt_Some in Hev. rewrite stagesOf_length in Hev. lia. }
  destruct (stagesOf_lookup dst src fil σ k Hk) as (ev' & Hev' & Hi & Ht).
  rewrite Hev in Hev'. injection Hev' as <-. done.
Qed.

Lemma stageReader_position src fil (k : nat) r :
  stageReader src fil (Z.of_nat k - 1) = Some r → (src :: fil) !! k = Some r.
Proof.
  unfold stageReader. destruct k as [|k].
  - by destruct (Z.ltb_spec (Z.of_nat 0 - 1) 0); [|lia].
  - destruct (Z.ltb_spec (Z.of_nat (S k) - 1) 0); [lia|].
    by replace (Z.to_nat (Z.of_nat (S k) - 1)) with k by lia.
Qed.

Lemma stageWriter_position dst fil (k : nat) w :
  (k ≤ length fil)%nat →
  stageWriter dst fil (Z.of_nat k - 1) = Some w → (fil ++ [dst]) !! k = Some w.
Proof.
  intros Hk. unfold stageWriter.
  destruct (Z.eqb_spec (Z.of_nat k - 1) (Z.of_nat (length fil) - 1)) as [Heq|Hne].
  - intros [= <-]. replace k with (length fil + 0)%nat by lia.
    by rewrite lookup_app_r, Nat.add_comm, Nat.add_sub by lia.
  - replace (Z.to_nat (Z.of_nat k - 1 + 1)) with k by lia.
    intros Hw. rewrite lookup_app_l; [done|lia].
Qed.

Lemma stagesOf_offsets dst src fil σ :
  map ev_offset (stagesOf dst src fil σ)
  = seqZ 0 (Z.of_nat (length fil + 1)).
Proof.
  change 0 with (1 + -1). rewrite <- fmap_add_seqZ.
  rewrite <- (stagesOf_index dst src fil σ), !map_fmap, <- list_fmap_compose.
  apply Forall_fmap_ext_1.
  eapply Forall_impl; [apply stagesOf_tasks|].
  intros ev Hev. simpl. rewrite (task_offset _ _ _ _ Hev). lia.
Qed.

(** C2. A call of [Copy] with N filters returns, and its aggregate holds
    N + 1 outcomes: [set] is called once for every index from 0 to N; the
    outcome at index k is the one of the task at position k of the pipeline,
    which reads from the k-th of source and filters and writes to the k-th
    of filters and destination. This aggregate, complete, is the error
    [Copy] returns when it returns one. *)
Theorem Copy_outcomes (dst src : stream) (fil : list stream) (σ : store) :
  let N := length fil in
  let hist := stagesOf dst src fil σ in
  let rs := resultsOf dst src fil σ in
  (∃ n err σ',
     Copy dst src fil σ = Some (n, err, σ')
     ∧ ∀ e, err = Some e → e = copyError rs)
  ∧ length rs = (N + 1)%nat
  ∧ map ev_offset hist = seqZ 0 (Z.of_nat (N + 1))
  ∧ NoDup (map ev_offset hist)
  ∧ ∀ k : nat, (k ≤ N)%nat →
      ∃ ev,
        hist !! k = Some ev
        ∧ ev_offset ev = Z.of_nat k
        ∧ (src :: fil) !! k = Some (ev_reader ev)
        ∧ (fil ++ [dst]) !! k = Some (ev_writer ev)
        ∧ rs !! k = Some (resultOf ev).
Proof.
  intros N hist rs. split; [|split; [|split; [|split]]].
  - pose proof (Copy_unfold dst src fil σ) as HC. simpl in HC.
    eexists _, _, _. split; [exact HC|].
    intros e. destruct (firstErr (stagesOf dst src fil σ)); [|done].
    by intros [= <-].
  - unfold rs. rewrite resultsOf_stages, length_map. apply stagesOf_length.
  - apply stagesOf_offsets.
  - unfold hist. rewrite stagesOf_offsets. apply NoDup_seqZ.
  - intros k Hk.
    destruct (stagesOf_lookup dst src fil σ k Hk) as (ev & Hev & Hi & Ht).
    exists ev. split; [done|]. split; [|split; [|split]].
    + rewrite (task_offset _ _ _ _ Ht), Hi. lia.
    + apply stageReader_position. rewrite <- Hi. apply (task_reader _ _ _ _ Ht).
    + apply stageWriter_position; [done|]. rewrite <- Hi.
      apply (task_writer _ _ _ _ Ht).
    + unfold rs. rewrite resultsOf_stages, map_fmap, list_lookup_fmap.
      by rewrite Hev.
Qed.

(** ** Counting *)

Lemma wrap64_small z : - 2 ^ 63 ≤ z < 2 ^ 63 → wrap64 z = z.
Proof.
  intros Hz. unfold wrap64.
  rewrite Z.mod_small by lia. lia.
Qed.

Lemma wrap64_add_l a b : wrap64 (wrap64 a + b) = wrap64 (a + b).
Proof.
  unfold wrap64. f_equal.
  replace ((a + 2 ^ 63) mod 2 ^ 64 - 2 ^ 63 + b + 2 ^ 63)
    with ((a + 2 ^ 63) mod 2 ^ 64 + b) by lia.
  rewrite Zplus_mod_idemp_l. f_equal. lia.
Qed.

(** The running total of the counting task is the plain sum, wrapped. *)
Lemma sum64_from_wrap a ns : sum64_from (wrap64 a) ns = wrap64 (a + sumZ ns).
Proof.
  revert a. induction ns as [|n ns IH]; intros a.
  - unfold sumZ. simpl. by rewrite Z.add_0_r.
  - unfold sum64_from. cbn [foldl]. fold (sum64_from (add64 (wrap64 a) n) ns).
    unfold add64. by rewrite IH, <- Z.add_assoc, wrap64_add_l.
Qed.

Lemma sum64_wrap ns : sum64 ns = wrap64 (sumZ ns).
Proof.
  unfold sum64. change 0 with (wrap64 0) at 1.
  by rewrite sum64_from_wrap.
Qed.

Lemma sumZ_nonneg ns : Forall (fun n => 0 ≤ n) ns → 0 ≤ sumZ ns.
Proof. induction 1; unfold sumZ in *; simpl; lia. Qed.

(** The values sent on the channel are the counts of the tasks whose
    transfer returned nil. *)
Lemma counts_filter hist :
  omap countOf hist = map ev_n (List.filter transferOk hist).
Proof.
  induction hist as [|ev hist IH]; [done|].
  change (omap countOf (ev :: hist))
    with (match countOf ev with
          | Some n => n :: omap countOf hist
          | None => omap countOf hist
          end).
  cbn [List.filter]. rewrite IH.
  assert (Hev : countOf ev = if transferOk ev then Some (ev_n ev) else None).
  { unfold countOf, transferOk. by destruct (ev_err ev). }
  rewrite Hev. by destruct (transferOk ev).
Qed.

Lemma stagesOf_counts_nonneg dst src fil σ :
  Forall (fun ev => 0 ≤ ev_n ev) (stagesOf dst src fil σ).
Proof.
  eapply Forall_impl; [apply stagesOf_tasks|].
  intros ev Ht.
  destruct (io_Copy_took _ _ _ _ _ _ (task_transfer _ _ _ _ Ht))
    as (moved & _ & -> & _).
  lia.
Qed.

(** C4. The count [Copy] returns is the sum, wrapped to [int64], of the
    counts of the stages whose [io.Copy] returned a nil error, and of these
    only: a stage whose transfer returned an error adds nothing, whatever it
    moved. This holds with and without an error returned. The counts are
    not negative, and short of 2^63 bytes nothing wraps. *)
Theorem Copy_written (dst src : stream) (fil : list stream) (σ : store) :
  let hist := stagesOf dst src fil σ in
  let total := sumZ (map ev_n (List.filter transferOk hist)) in
  (∃ err σ', Copy dst src fil σ = Some (wrap64 total, err, σ'))
  ∧ length hist = (length fil + 1)%nat
  ∧ Forall (taskOf dst src fil) hist
  ∧ Forall (fun ev => 0 ≤ ev_n ev) hist
  ∧ (total < 2 ^ 63 → wrap64 total = total).
Proof.
  intros hist total.
  pose proof (stagesOf_counts_nonneg dst src fil σ) as Hpos. fold hist in Hpos.
  split; [|split; [|split; [|split]]].
  - pose proof (Copy_unfold dst src fil σ) as HC. cbv zeta in HC.
    rewrite sum64_wrap, counts_filter in HC.
    eexists _, _. exact HC.
  - apply stagesOf_length.
  - apply stagesOf_tasks.
  - exact Hpos.
  - intros Hsum. apply wrap64_small. split; [|done].
    assert (0 ≤ total); [|lia].
    apply sumZ_nonneg. apply Forall_forall. intros n Hn.
    apply list_elem_of_fmap in Hn as (ev & -> & Hev).
    apply list_elem_of_In, List.filter_In in Hev as [Hev _].
    apply list_elem_of_In in Hev.
    rewrite Forall_forall in Hpos. by apply Hpos.
Qed.

(** A stage that moves two bytes and then fails counts for nothing: the
    destination holds the two bytes and the count is zero. *)
Example Copy_written_failed_stage :
  ∃ e σ',
    Copy (Plain 1) (Plain 0) [] shortStore = Some (0, Some e, σ')
    ∧ input (σ' 1%nat) = "da".
Proof. eexists _, _. split; reflexivity. Qed.

(** ** Frames of the transfers *)

Lemma sameSpec_refl σ : sameSpec σ σ.
Proof. by intros ref. Qed.

Lemma sameSpec_trans σ1 σ2 σ3 :
  sameSpec σ1 σ2 → sameSpec σ2 σ3 → sameSpec σ1 σ3.
Proof. intros H12 H23 ref. by rewrite H23, H12. Qed.

Lemma sameSpec_upd σ ref o :
  spec o = spec (σ ref) → sameSpec σ (upd σ ref o).
Proof.
  intros Ho ref'. destruct (decide (ref' = ref)) as [->|Hne].
  - by rewrite upd_eq.
  - by rewrite upd_ne.
Qed.

Lemma sameCloses_refl σ : sameCloses σ σ.
Proof. by intros ref. Qed.

Lemma obj_Write_sameSpec ref p σ nw e σ' :
  obj_Write ref p σ = (nw, e, σ') → sameSpec σ σ'.
Proof.
  unfold obj_Write.
  destruct (writeCap (spec (σ ref))) as [[k e']|];
    [destruct (_ <=? _)%nat|]; intros [= _ _ <-]; by apply sameSpec_upd.
Qed.

Lemma stream_Write_frame w p σ nw e σ' :
  stream_Write w p σ = (nw, e, σ') → sameSpec σ σ' ∧ sameCloses σ σ'.
Proof.
  destruct w as [ref|f]; simpl.
  - intros Hw. split;
      [by eapply obj_Write_sameSpec|by eapply obj_Write_sameCloses].
  - unfold filter_Write. destruct (isWriteBuffer (σ (buf f))).
    + intros Hw. split;
        [by eapply obj_Write_sameSpec|by eapply obj_Write_sameCloses].
    + intros [= _ _ <-]. split; [apply sameSpec_refl|apply sameCloses_refl].
Qed.

(** The loop of [io.Copy] closes nothing and changes no behaviour. *)
Lemma copyBuffer_frame w r σ n e σ' :
  copyBuffer w r σ = (n, e, σ') → sameSpec σ σ' ∧ sameCloses σ σ'.
Proof.
  unfold copyBuffer.
  destruct (pending (σ (readerRef r))) as [|c rest].
  - intros [= _ _ <-]. split; [apply sameSpec_refl|apply sameCloses_refl].
  - match goal with
    | |- context [stream_Write w ?p ?s] =>
        destruct (stream_Write w p s) as [[nw ew] σ2] eqn:Hwrite
    end.
    intros [= _ _ <-].
    destruct (stream_Write_frame _ _ _ _ _ _ Hwrite) as [Hs Hc].
    split.
    + eapply sameSpec_trans; [|exact Hs]. by apply sameSpec_upd.
    + eapply sameCloses_trans; [|exact Hc]. by apply sameCloses_upd.
Qed.

Lemma isWriteBuffer_sameSpec σ σ' ref :
  sameSpec σ σ' → isWriteBuffer (σ' ref) = isWriteBuffer (σ ref).
Proof. intros Hs. unfold isWriteBuffer. by rewrite Hs. Qed.

Lemma firstErr_None hist :
  firstErr hist = None ↔ Forall (fun ev => ev_err ev = None) hist.
Proof.
  induction hist as [|ev hist IH]; simpl.
  - split; [by constructor|done].
  - destruct (ev_err ev) as [e|] eqn:He.
    + split; [done|]. intros Hall. apply Forall_cons in Hall as [Hev _].
      congruence.
    + rewrite IH. split.
      * intros Hall. by constructor.
      * intros Hall. by apply Forall_cons in Hall as [_ Hall].
Qed.

Lemma obj_Close_frame ref σ :
  sameSpec σ (snd (obj_Close ref σ))
  ∧ closes (snd (obj_Close ref σ) ref) = S (closes (σ ref))
  ∧ fst (obj_Close ref σ)
    = match closer (spec (σ ref)) with Some r => r | None => None end.
Proof.
  unfold obj_Close. simpl. rewrite upd_eq. split; [|done].
  by apply sameSpec_upd.
Qed.

(** ** Frames of the tasks *)

Lemma lastStore_cat σ h1 h2 :
  lastStore σ (h1 ++ h2) = lastStore (lastStore σ h1) h2.
Proof. revert σ. induction h1 as [|ev h1 IH]; simpl; auto. Qed.

Lemma chained_cat σ h1 h2 :
  chained σ (h1 ++ h2) → chained σ h1 ∧ chained (lastStore σ h1) h2.
Proof.
  revert σ. induction h1 as [|ev h1 IH]; simpl; intros σ.
  - auto.
  - intros [Hs Hc]. destruct (IH _ Hc) as [H1 H2]. auto.
Qed.

(** The task at position [k] of a chained history starts in the store the
    first [k] tasks leave and ends in the store the tasks after it start
    from. *)
Lemma chained_lookup σ hist (k : nat) ev :
  chained σ hist → hist !! k = Some ev →
  ev_start ev = lastStore σ (take k hist)
  ∧ ev_done ev = lastStore σ (take (S k) hist)
  ∧ chained σ (take k hist)
  ∧ chained (ev_done ev) (drop (S k) hist).
Proof.
  intros Hch Hev.
  pose proof (take_drop_middle _ _ _ Hev) as Hsplit.
  rewrite <- Hsplit in Hch.
  apply chained_cat in Hch as [Hpre Hrest]. simpl in Hrest.
  destruct Hrest as [Hstart Hpost].
  split; [done|]. split; [|done].
  rewrite (take_S_r _ _ _ Hev), lastStore_cat. done.
Qed.

Lemma writerFrame_refl w σ : writerFrame w σ σ.
Proof. split; [apply sameSpec_refl|]. split; [intros x; lia|done]. Qed.

Lemma writerFrame_trans w σ1 σ2 σ3 :
  writerFrame w σ1 σ2 → writerFrame w σ2 σ3 → writerFrame w σ1 σ3.
Proof.
  intros (Hs1 & Hm1 & Hf1) (Hs2 & Hm2 & Hf2).
  split; [by eapply sameSpec_trans|]. split.
  - intros x. specialize (Hm1 x). specialize (Hm2 x). lia.
  - intros x Hx. by rewrite Hf2, Hf1.
Qed.

Lemma writerFrame_quiet w σ σ' :
  sameSpec σ σ' → sameCloses σ σ' → writerFrame w σ σ'.
Proof.
  intros Hs Hc. split; [done|]. split.
  - intros x. rewrite Hc. lia.
  - intros x _. apply Hc.
Qed.

Lemma obj_Close_writerFrame w σ ce σ' :
  obj_Close (writerRef w) σ = (ce, σ') → writerFrame w σ σ'.
Proof.
  unfold obj_Close. intros [= _ <-].
  split; [by apply sameSpec_upd|]. split.
  - intros x. destruct (decide (x = writerRef w)) as [->|Hne].
    + rewrite upd_eq. simpl. lia.
    + rewrite upd_ne by done. lia.
  - intros x Hx. by rewrite upd_ne.
Qed.


(** [io.Copy] into [w] closes nothing but the object behind [w]. *)
Lemma io_Copy_writerFrame w r σ n e σ' :
  io_Copy w r σ = (n, e, σ') → writerFrame w σ σ'.
Proof.
  unfold io_Copy.
  destruct (hasWriteTo r σ).
  { intros Hc. destruct (copyBuffer_frame _ _ _ _ _ _ Hc).
    by apply writerFrame_quiet. }
  destruct w as [ref|f].
  { intros Hc. destruct (copyBuffer_frame _ _ _ _ _ _ Hc).
    by apply writerFrame_quiet. }
  unfold filter_ReadFrom.
  destruct (negb (isWriteBuffer (σ (buf f)))).
  { intros [= _ _ <-]. apply writerFrame_refl. }
  unfold io_Copy_plain.
  destruct (copyBuffer (Plain (buf f)) r σ) as [[n1 e1] σ1] eqn:Hinner.
  destruct (obj_Close (buf f) σ1) as [ce σ2] eqn:Hcl.
  intros [= _ _ <-].
  destruct (copyBuffer_frame _ _ _ _ _ _ Hinner).
  eapply writerFrame_trans;
    [|exact (obj_Close_writerFrame (Filtered f) _ _ _ Hcl)].
  by apply writerFrame_quiet.
Qed.

(** The deferred close of a task closes nothing but the object behind its
    writer. *)
Lemma stream_Close_writerFrame w σ ce σ' :
  stream_Close w σ = Some (ce, σ') → writerFrame w σ σ'.
Proof.
  destruct w as [ref|f]; simpl.
  - destruct (closer (spec (σ ref))); [|done].
    destruct (obj_Close ref σ) as [ce' σ2] eqn:Hcl. intros [= _ <-].
    exact (obj_Close_writerFrame (Plain ref) _ _ _ Hcl).
  - unfold filter_Close. destruct (isWriteBuffer (σ (buf f))).
    + destruct (obj_Close (buf f) σ) as [ce' σ2] eqn:Hcl. intros [= _ <-].
      exact (obj_Close_writerFrame (Filtered f) _ _ _ Hcl).
    + intros [= _ <-]. apply writerFrame_refl.
Qed.

(** A task, from the store it starts in to the store it leaves. *)
Lemma task_writerFrame dst src fil ev :
  taskOf dst src fil ev →
  writerFrame (ev_writer ev) (ev_start ev) (ev_copied ev)
  ∧ writerFrame (ev_writer ev) (ev_copied ev) (ev_done ev).
Proof.
  intros Ht.
  pose proof (task_transfer _ _ _ _ Ht) as Hcopy.
  pose proof (task_close _ _ _ _ Ht) as Hclose.
  split; [by eapply io_Copy_writerFrame|].
  destruct (stream_Close (ev_writer ev) (ev_copied ev)) as [[ce σ2]|] eqn:Hc.
  - destruct Hclose as [_ ->]. by eapply stream_Close_writerFrame.
  - destruct Hclose as [_ ->]. apply writerFrame_refl.
Qed.

(** A run of tasks keeps the behaviour of every object, undoes no close, and
    leaves the count of closes of an object none of them writes to. *)
Lemma tasks_frame dst src fil σ hist :
  chained σ hist → Forall (taskOf dst src fil) hist →
  sameSpec σ (lastStore σ hist)
  ∧ (∀ x, (closes (σ x) ≤ closes (lastStore σ hist x))%nat)
  ∧ (∀ x, Forall (fun ev => writerRef (ev_writer ev) ≠ x) hist →
       closes (lastStore σ hist x) = closes (σ x)).
Proof.
  revert σ. induction hist as [|ev hist IH]; simpl; intros σ Hch Hall.
  - split; [apply sameSpec_refl|]. split; [intros x; lia|done].
  - destruct Hch as [Hstart Hch]. apply Forall_cons in Hall as [Ht Hall].
    destruct (task_writerFrame _ _ _ _ Ht) as [H1 H2].
    pose proof (writerFrame_trans _ _ _ _ H1 H2) as (Hs & Hm & Hf).
    rewrite Hstart in Hs, Hm, Hf.
    destruct (IH _ Hch Hall) as (Hs' & Hm' & Hf').
    split; [by eapply sameSpec_trans|]. split.
    + intros x. specialize (Hm x). specialize (Hm' x). lia.
    + intros x Hx. apply Forall_cons in Hx as [Hx Hrest].
      rewrite (Hf' x Hrest). apply Hf. done.
Qed.

(** The writer of the task at a position is the writer of the loop there. *)
Lemma stagesOf_writer dst src fil σ (k : nat) ev :
  stagesOf dst src fil σ !! k = Some ev →
  writersOf dst fil !! k = Some (ev_writer ev)
  ∧ readersOf src fil !! k = Some (ev_reader ev).
Proof.
  intros Hev.
  destruct (stagesOf_position _ _ _ _ _ _ Hev) as (Hk & Hi & Ht).
  split.
  - apply stageWriter_position; [done|]. rewrite <- Hi.
    apply (task_writer _ _ _ _ Ht).
  - apply stageReader_position. rewrite <- Hi.
    apply (task_reader _ _ _ _ Ht).
Qed.

(** When the stage at [k] is the only one that writes to [ref], no task
    before it and no task after it writes there. *)
Lemma soleWriter_others dst src fil σ (k : nat) ref :
  soleWriter dst fil k ref →
  let hist := stagesOf dst src fil σ in
  Forall (fun ev => writerRef (ev_writer ev) ≠ ref) (take k hist)
  ∧ Forall (fun ev => writerRef (ev_writer ev) ≠ ref) (drop (S k) hist).
Proof.
  intros Hsole hist. split; apply Forall_lookup_2; intros j ev Hj.
  - apply lookup_take_Some in Hj as [Hj Hlt].
    destruct (stagesOf_writer _ _ _ _ _ _ Hj) as [Hw _].
    apply (Hsole j); [lia|done].
  - rewrite lookup_drop in Hj.
    destruct (stagesOf_writer _ _ _ _ _ _ Hj) as [Hw _].
    apply (Hsole (S k + j)%nat); [lia|done].
Qed.

(** The stage at position [k] within the whole call: the store it starts
    in has the behaviours of [σ] and at least its closes, and the store
    [Copy] returns has at least the closes the stage left; both counts are
    exact for an object no other stage writes to. *)
Lemma stage_in_call dst src fil σ (k : nat) ev :
  stagesOf dst src fil σ !! k = Some ev →
  let hist := stagesOf dst src fil σ in
  let σ' := lastStore (ev_done ev) (drop (S k) hist) in
  ev_start ev = lastStore σ (take k hist)
  ∧ ev_done ev = lastStore σ (take (S k) hist)
  ∧ lastStore σ hist = σ'
  ∧ sameSpec σ (ev_start ev)
  ∧ sameSpec σ (ev_copied ev)
  ∧ (∀ x, (closes (σ x) ≤ closes (ev_start ev x))%nat)
  ∧ (∀ x, (closes (ev_start ev x) ≤ closes (ev_copied ev x))%nat)
  ∧ (∀ x, (closes (ev_done ev x) ≤ closes (σ' x))%nat)
  ∧ (∀ ref, soleWriter dst fil k ref →
       closes (ev_start ev ref) = closes (σ ref)
       ∧ closes (σ' ref) = closes (ev_done ev ref)).
Proof.
  intros Hev hist σ'.
  pose proof (stagesOf_chained dst src fil σ) as Hch.
  pose proof (stagesOf_tasks dst src fil σ) as Hall.
  destruct (chained_lookup _ _ _ _ Hch Hev) as (Hstart & Hdone & Hpre & Hpost).
  destruct (stagesOf_position _ _ _ _ _ _ Hev) as (_ & _ & Ht).
  destruct (task_writerFrame _ _ _ _ Ht) as [(Hs1 & Hm1 & _) _].
  destruct (tasks_frame dst src fil _ _ Hpre (Forall_take _ _ _ Hall))
    as (Hsa & Hma & Hfa).
  destruct (tasks_frame dst src fil _ _ Hpost (Forall_drop _ _ _ Hall))
    as (Hsb & Hmb & Hfb).
  fold hist in Hstart, Hdone, Hsa, Hma, Hfa, Hsb, Hmb, Hfb.
  rewrite <- Hstart in Hsa, Hma, Hfa.
  split; [done|]. split; [done|]. split.
  { unfold σ'. rewrite Hdone, <- lastStore_cat.
    by rewrite <- (take_drop (S k) hist) at 1. }
  split; [done|]. split; [by eapply sameSpec_trans|].
  split; [done|]. split; [done|]. split; [done|].
  intros ref Hsole.
  destruct (soleWriter_others dst src fil σ k ref Hsole) as [Hbefore Hafter].
  split; [by apply Hfa|by apply Hfb].
Qed.

(** ** Closing and joining *)

Lemma stream_Close_plain ref σ res :
  closer (spec (σ ref)) = Some res →
  stream_Close (Plain ref) σ
  = Some (res, upd σ ref (closed (σ ref))).
Proof. intros Hc. simpl. unfold obj_Close. by rewrite Hc. Qed.

(** C3. For the task at any position of any call: the task ran [io.Copy]
    between its two streams; then, whatever the transfer returned, it asked
    its writer for [Close] and called it when the writer has one (a plain
    closer has one more close to its count, and so has the handle of a
    filter that can be written to); the outcome it stored is the join of the
    error of the transfer and the error of the close. Either error is found
    in the join by [errors.Is], and when both are there the join holds the
    two, the transfer's first.

    The task is a step of the call: it starts in the store the tasks before
    it leave from [σ], and the store [Copy] returns is the one the tasks
    after it leave from the store it ends in. So, from [σ] to the store
    [Copy] returns: a plain writer that [σ] gives a [Close] has had it
    called, with the result the stage joined, and its count of closes has
    grown, by exactly one when no other stage writes to it; a plain writer
    without [Close] was not closed by its stage; and the handle of a filter
    that can be written to has been closed. *)
Theorem stage_closes_and_joins (dst src : stream) (fil : list stream)
    (σ : store) (k : nat) (ev : event) :
  stagesOf dst src fil σ !! k = Some ev →
  let hist := stagesOf dst src fil σ in
  let joined := errors_Join [ev_err ev; ev_closeErr ev] in
  io_Copy (ev_writer ev) (ev_reader ev) (ev_start ev)
  = (ev_n ev, ev_err ev, ev_copied ev)
  ∧ match stream_Close (ev_writer ev) (ev_copied ev) with
    | Some (ce, σ') => ev_closeErr ev = ce ∧ ev_done ev = σ'
    | None => ev_closeErr ev = None ∧ ev_done ev = ev_copied ev
    end
  ∧ (∀ ref res,
       ev_writer ev = Plain ref →
       closer (spec (ev_copied ev ref)) = Some res →
       ev_closeErr ev = res
       ∧ closes (ev_done ev ref) = S (closes (ev_copied ev ref)))
  ∧ (∀ f,
       ev_writer ev = Filtered f →
       isWriteBuffer (ev_copied ev (buf f)) = true →
       closes (ev_done ev (buf f)) = S (closes (ev_copied ev (buf f))))
  ∧ resultsOf dst src fil σ !! k
    = Some (CopyResult (cmdString (ev_reader ev) (ev_done ev)) joined)
  ∧ (∀ x, ev_err ev = Some x → errors_Is joined (Some x) = true)
  ∧ (∀ y, ev_closeErr ev = Some y → errors_Is joined (Some y) = true)
  ∧ (∀ x y, ev_err ev = Some x → ev_closeErr ev = Some y →
       joined = Some (joinError [x; y]))
  ∧ writersOf dst fil !! k = Some (ev_writer ev)
  ∧ readersOf src fil !! k = Some (ev_reader ev)
  ∧ ev_start ev = lastStore σ (take k hist)
  ∧ ev_done ev = lastStore σ (take (S k) hist)
  ∧ ∃ n err σ',
      Copy dst src fil σ = Some (n, err, σ')
      ∧ σ' = lastStore (ev_done ev) (drop (S k) hist)
      ∧ (∀ ref res,
           ev_writer ev = Plain ref →
           closer (spec (σ ref)) = Some res →
           ev_closeErr ev = res
           ∧ (closes (σ ref) < closes (σ' ref))%nat
           ∧ (soleWriter dst fil k ref →
              closes (σ' ref) = S (closes (σ ref))))
      ∧ (∀ ref,
           ev_writer ev = Plain ref →
           closer (spec (σ ref)) = None →
           ev_closeErr ev = None
           ∧ ev_done ev = ev_copied ev
           ∧ (soleWriter dst fil k ref → closes (σ' ref) = closes (σ ref)))
      ∧ (∀ f,
           ev_writer ev = Filtered f →
           isWriteBuffer (σ (buf f)) = true →
           (closes (σ (buf f)) < closes (σ' (buf f)))%nat).
Proof.
  intros Hev hist joined.
  destruct (stagesOf_position _ _ _ _ _ _ Hev) as (Hk & Hi & Ht).
  pose proof (task_close _ _ _ _ Ht) as Hclose.
  assert (Hplain : ∀ ref res,
            ev_writer ev = Plain ref →
            closer (spec (ev_copied ev ref)) = Some res →
            ev_closeErr ev = res
            ∧ closes (ev_done ev ref) = S (closes (ev_copied ev ref))).
  { intros ref res Hw Hc. rewrite Hw in Hclose.
    rewrite (stream_Close_plain _ _ _ Hc) in Hclose.
    destruct Hclose as [-> ->]. split; [done|]. by rewrite upd_eq. }
  assert (Hfilter : ∀ f,
            ev_writer ev = Filtered f →
            isWriteBuffer (ev_copied ev (buf f)) = true →
            closes (ev_done ev (buf f)) = S (closes (ev_copied ev (buf f)))).
  { intros f Hw Hwb. rewrite Hw in Hclose. simpl in Hclose.
    unfold filter_Close in Hclose. rewrite Hwb in Hclose.
    unfold obj_Close in Hclose. destruct Hclose as [_ ->].
    by rewrite upd_eq. }
  split; [apply (task_transfer _ _ _ _ Ht)|].
  split; [exact Hclose|].
  split; [exact Hplain|]. split; [exact Hfilter|].
  split; [by rewrite resultsOf_stages, map_fmap, list_lookup_fmap, Hev|].
  split; [intros x Hx; unfold joined; rewrite Hx; apply errors_Join_Is_l|].
  split; [intros y Hy; unfold joined; rewrite Hy; apply errors_Join_Is_r|].
  split; [intros x y Hx Hy; unfold joined; by rewrite Hx, Hy|].
  destruct (stagesOf_writer _ _ _ _ _ _ Hev) as [Hwr Hrd].
  split; [done|]. split; [done|].
  destruct (stage_in_call _ _ _ _ _ _ Hev)
    as (Hstart & Hdone & Hlast & Hs0 & Hs1 & Hm0 & Hm1 & Hm2 & Hsole).
  fold hist in Hstart, Hdone, Hlast, Hm2, Hsole.
  split; [done|]. split; [done|].
  pose proof (Copy_unfold dst src fil σ) as HC. cbv zeta in HC.
  fold hist in HC. rewrite Hlast in HC.
  eexists _, _, _. split; [exact HC|]. split; [done|].
  split; [|split].
  - intros ref res Hw Hc.
    assert (Hc' : closer (spec (ev_copied ev ref)) = Some res)
      by by rewrite Hs1.
    destruct (Hplain ref res Hw Hc') as [Hce Hcl].
    split; [done|]. split.
    + specialize (Hm0 ref). specialize (Hm1 ref). specialize (Hm2 ref). lia.
    + intros Hone. destruct (Hsole ref Hone) as [Hbefore Hafter].
      rewrite Hafter, Hcl. f_equal.
      pose proof (task_transfer _ _ _ _ Ht) as Hcopy. rewrite Hw in Hcopy.
      unfold io_Copy in Hcopy.
      assert (Hcb : copyBuffer (Plain ref) (ev_reader ev) (ev_start ev)
                    = (ev_n ev, ev_err ev, ev_copied ev))
        by by destruct (hasWriteTo (ev_reader ev) (ev_start ev)).
      destruct (copyBuffer_frame _ _ _ _ _ _ Hcb) as [_ Hsame].
      by rewrite Hsame.
  - intros ref Hw Hc. rewrite Hw in Hclose. simpl in Hclose.
    rewrite Hs1, Hc in Hclose. destruct Hclose as [Hce Hsame].
    split; [done|]. split; [done|].
    intros Hone. destruct (Hsole ref Hone) as [Hbefore Hafter].
    rewrite Hafter, Hsame, <- Hbefore.
    pose proof (task_transfer _ _ _ _ Ht) as Hcopy. rewrite Hw in Hcopy.
    unfold io_Copy in Hcopy.
    assert (Hcb : copyBuffer (Plain ref) (ev_reader ev) (ev_start ev)
                  = (ev_n ev, ev_err ev, ev_copied ev))
      by by destruct (hasWriteTo (ev_reader ev) (ev_start ev)).
    destruct (copyBuffer_frame _ _ _ _ _ _ Hcb) as [_ Hsame'].
    by rewrite Hsame'.
  - intros f Hw Hwb.
    assert (Hwb' : isWriteBuffer (ev_copied ev (buf f)) = true)
      by by rewrite (isWriteBuffer_sameSpec _ _ _ Hs1).
    pose proof (Hfilter f Hw Hwb') as Hcl.
    specialize (Hm0 (buf f)). specialize (Hm1 (buf f)).
    specialize (Hm2 (buf f)). lia.
Qed.

Lemma stage_closes_and_joins_witness :
  let dst := Plain 2 in
  let src := Plain 0 in
  let fil := [NewFilter 1] in
  let ev := stageAt dst src fil failStore 0 in
  (stagesOf dst src fil failStore !! 0%nat = Some ev)
  ∧ ev_err ev = Some errRead
  ∧ ev_closeErr ev = Some errClose
  ∧ resultsOf dst src fil failStore !! 0%nat
    = Some (CopyResult "source reader"
              (Some (joinError [errRead; errClose])))
  ∧ closes (ev_done ev 1%nat) = S (closes (ev_copied ev 1%nat))
  ∧ ∃ n err σ',
      Copy dst src fil failStore = Some (n, err, σ')
      ∧ (closes (failStore 1%nat) < closes (σ' 1%nat))%nat.
Proof.
  intros dst src fil ev.
  assert (Hev : stagesOf dst src fil failStore !! 0%nat = Some ev)
    by reflexivity.
  destruct (stage_closes_and_joins dst src fil failStore 0 ev Hev)
    as (_ & _ & _ & Hcl & Hres & _ & _ & Hboth & _ & _ & _ & _
        & n & err & σ' & HC & _ & _ & _ & Hfil).
  split; [exact Hev|].
  split; [reflexivity|]. split; [reflexivity|].
  split; [rewrite Hres; f_equal|].
  split; [apply (Hcl (Filter 1)); reflexivity|].
  exists n, err, σ'. split; [exact HC|].
  apply (Hfil (Filter 1)); reflexivity.
Defined.

(** The error of a close alone is stored but not returned: the group only
    sees what [io.Copy] returned. With the text [data] through a command
    whose close fails, [Copy] returns 8 and a nil error, and the slice holds
    the error of the close. *)
Example Copy_close_error_only :
  ∃ σ',
    Copy (Plain 3) (Plain 0) [NewFilter 1] cmdStore = Some (8, None, σ')
    ∧ resultsOf (Plain 3) (Plain 0) [NewFilter 1] cmdStore
      = [CopyResult "<*strings.Reader>" (Some (joinError [errClose]));
         CopyResult "<*command.filter>" None].
Proof. eexists. split; reflexivity. Qed.

(** ** Unwrapping the aggregate *)

Lemma nonNil_omap results : nonNil results = omap err results.
Proof.
  induction results as [|[c [e|]] rs IH]; simpl; [done| |done].
  by rewrite IH.
Qed.

(** C5. When [Copy] returns an error, it is the aggregate of the call; its
    [Unwrap] yields the errors of the outcomes that are not nil, in the order
    of the pipeline; and [errors.Is] finds in it the error any stage's
    transfer returned and the error any stage's close returned. *)
Theorem Copy_error_unwrap (dst src : stream) (fil : list stream) (σ : store)
    (n : int64) (e : error) (σ' : store) :
  Copy dst src fil σ = Some (n, Some e, σ') →
  e = copyError (resultsOf dst src fil σ)
  ∧ Unwrap e = omap err (resultsOf dst src fil σ)
  ∧ Unwrap e
    = omap (fun ev => errors_Join [ev_err ev; ev_closeErr ev])
        (stagesOf dst src fil σ)
  ∧ ∀ ev x,
      ev ∈ stagesOf dst src fil σ →
      ev_err ev = Some x ∨ ev_closeErr ev = Some x →
      errors_Is (Some e) (Some x) = true.
Proof.
  intros HC. rewrite Copy_unfold in HC. simpl in HC.
  destruct (firstErr (stagesOf dst src fil σ)); [|done].
  injection HC as _ <- _.
  split; [done|]. split; [apply nonNil_omap|]. split.
  - simpl. rewrite resultsOf_stages. apply nonNil_map_resultOf.
  - intros ev x Hev Hx. rewrite resultsOf_stages. cbn [errors_Is].
    assert (Hjoin : ∃ j, errors_Join [ev_err ev; ev_closeErr ev] = Some j
                         ∧ is_ j x = true).
    { destruct Hx as [Hx|Hx].
      - pose proof (errors_Join_Is_l x (ev_closeErr ev)) as His.
        rewrite <- Hx in His at 1.
        destruct (errors_Join [ev_err ev; ev_closeErr ev]) as [j|]; [|done].
        by exists j.
      - pose proof (errors_Join_Is_r (ev_err ev) x) as His.
        rewrite <- Hx in His at 1.
        destruct (errors_Join [ev_err ev; ev_closeErr ev]) as [j|]; [|done].
        by exists j. }
    destruct Hjoin as (j & Hj & His).
    apply (is_copyError _ (cmdString (ev_reader ev) (ev_done ev)) j); [|done].
    apply list_elem_of_fmap. exists ev. split; [|done].
    unfold resultOf. by rewrite Hj.
Qed.

Lemma Copy_error_unwrap_witness :
  let dst := Plain 3 in
  let src := Plain 0 in
  let fil := [Plain 1; Plain 2] in
  let e := copyError (resultsOf dst src fil errStore) in
  Copy dst src fil errStore
  = Some (0, Some e, lastStore errStore (stagesOf dst src fil errStore))
  ∧ Unwrap e = [joinError [errRead]; joinError [errProcessing]]
  ∧ errors_Is (Some e) (Some errRead) = true
  ∧ errors_Is (Some e) (Some errProcessing) = true.
Proof.
  intros dst src fil e.
  assert (HC : Copy dst src fil errStore
               = Some (0, Some e,
                       lastStore errStore (stagesOf dst src fil errStore)))
    by reflexivity.
  destruct (Copy_error_unwrap dst src fil errStore _ _ _ HC)
    as (_ & Hun & _ & His).
  split; [exact HC|]. split; [rewrite Hun; reflexivity|]. split.
  - apply (His (stageAt dst src fil errStore 0));
      [apply list_elem_of_lookup; exists 0%nat; reflexivity|left; reflexivity].
  - apply (His (stageAt dst src fil errStore 2));
      [apply list_elem_of_lookup; exists 2%nat; reflexivity|left; reflexivity].
Defined.

(** ** [strings.TrimRight] *)

Lemma TrimRight_split s cutset :
  ∃ tail,
    s = strings_TrimRight s cutset +:+ tail ∧ allInCutset tail cutset = true.
Proof.
  induction s as [|c s (tail & Hs & Htail)].
  - by exists EmptyString.
  - simpl.
    destruct (strings_TrimRight s cutset) as [|d t] eqn:Ht; simpl.
    + destruct (inCutset c cutset) eqn:Hc.
      * exists (String c s). split; [done|]. simpl. rewrite Hc. simpl.
        rewrite Hs. by rewrite append_nil_l.
      * exists tail. split; [|done]. rewrite append_cons. by f_equal.
    + exists tail. split; [|done]. rewrite append_cons. by f_equal.
Qed.

Lemma TrimRight_no_trailing s cutset :
  endsInCutset (strings_TrimRight s cutset) cutset = false.
Proof.
  induction s as [|c s IH]; [done|]. simpl.
  destruct (strings_TrimRight s cutset) as [|d t] eqn:Ht; simpl.
  - by destruct (inCutset c cutset) eqn:Hc; simpl.
  - exact IH.
Qed.

Lemma TrimRight_cons c s cutset :
  strings_TrimRight (String c s) cutset
  = if isEmpty (strings_TrimRight s cutset) && inCutset c cutset
    then EmptyString
    else String c (strings_TrimRight s cutset).
Proof. reflexivity. Qed.

Lemma TrimRight_fixed s cutset :
  endsInCutset s cutset = false → strings_TrimRight s cutset = s.
Proof.
  induction s as [|c s IH]; [done|]. intros Hend.
  destruct s as [|d s'].
  - simpl in *. by rewrite Hend.
  - change (endsInCutset (String c (String d s')) cutset)
      with (endsInCutset (String d s') cutset) in Hend.
    rewrite TrimRight_cons, (IH Hend). reflexivity.
Qed.

(** ** ReadAll *)

(** C8. When the [Copy] of [ReadAll] returns no error, [ReadAll] returns,
    with a nil error, the text drained into its builder less its trailing
    run of carriage returns and line feeds: the text is the result followed
    by bytes that are all CR or LF, and the result does not end in CR or LF.
    A text that does not end in CR or LF, as one that ends in a space or a
    tab, comes back unchanged, and so does the empty text. *)
Theorem ReadAll_trims (b : nat) (r : stream) (f : list stream) (σ : store)
    (n : int64) (σ' : store) :
  Copy (Plain b) r f (upd σ b newBuilder) = Some (n, None, σ') →
  let text := input (σ' b) in
  let out := strings_TrimRight text str_cr_lf in
  ReadAll b r f σ = Some (out, None, σ')
  ∧ (∃ tail, text = out +:+ tail ∧ allInCutset tail str_cr_lf = true)
  ∧ endsInCutset out str_cr_lf = false
  ∧ (endsInCutset text str_cr_lf = false → out = text)
  ∧ (text = EmptyString → out = EmptyString).
Proof.
  intros HC text out.
  split; [|split; [|split; [|split]]].
  - unfold ReadAll. rewrite HC. reflexivity.
  - apply TrimRight_split.
  - apply TrimRight_no_trailing.
  - apply TrimRight_fixed.
  - unfold out. by intros ->.
Qed.

Lemma ReadAll_trims_witness :
  let σ := textStore ("hello world" +:+ str_cr_lf +:+ str_cr_lf) in
  let run := upd σ 1 newBuilder in
  let σ' := lastStore run (stagesOf (Plain 1) (Plain 0) [] run) in
  Copy (Plain 1) (Plain 0) [] run = Some (15, None, σ')
  ∧ ReadAll 1 (Plain 0) [] σ = Some ("hello world", None, σ')
  ∧ ReadAll 1 (Plain 0) [] (textStore "hello world  ")
    = Some ("hello world  ", None,
            lastStore (upd (textStore "hello world  ") 1 newBuilder)
              (stagesOf (Plain 1) (Plain 0) []
                 (upd (textStore "hello world  ") 1 newBuilder))).
Proof.
  intros σ run σ'.
  assert (HC : Copy (Plain 1) (Plain 0) [] run = Some (15, None, σ'))
    by reflexivity.
  split; [exact HC|]. split.
  - destruct (ReadAll_trims 1 (Plain 0) [] σ 15 σ' HC) as (HR & _).
    rewrite HR. reflexivity.
  - assert (HC2 : Copy (Plain 1) (Plain 0) []
                    (upd (textStore "hello world  ") 1 newBuilder)
                  = Some (13, None,
                          lastStore (upd (textStore "hello world  ") 1 newBuilder)
                            (stagesOf (Plain 1) (Plain 0) []
                               (upd (textStore "hello world  ") 1 newBuilder))))
      by reflexivity.
    destruct (ReadAll_trims 1 (Plain 0) [] _ 13 _ HC2) as (HR & _).
    rewrite HR. reflexivity.
Defined.

(** What [ReadAll] returns for [strings.NewReader(s)] and no filter, for
    every text [s]. *)
Lemma ReadAll_of_text (s : string) :
  ∃ σ',
    ReadAll 1 (Plain 0) [] (textStore s)
    = Some (strings_TrimRight s str_cr_lf, None, σ').
Proof.
  destruct s as [|c s]; eexists; reflexivity.
Qed.

(** C10. When the [Copy] of [ReadAll] returns an error, [ReadAll] returns
    the empty string and that error, whatever the builder holds. *)
Theorem ReadAll_error (b : nat) (r : stream) (f : list stream) (σ : store)
    (n : int64) (e : error) (σ' : store) :
  Copy (Plain b) r f (upd σ b newBuilder) = Some (n, Some e, σ') →
  ReadAll b r f σ = Some (EmptyString, Some e, σ').
Proof. intros HC. unfold ReadAll. rewrite HC. reflexivity. Qed.

Lemma ReadAll_error_witness :
  let fil := [NewFilter 2] in
  let run := upd cmdStore 5 newBuilder in
  let e := copyError (resultsOf (Plain 5) (Plain 0) fil run) in
  let σ' := lastStore run (stagesOf (Plain 5) (Plain 0) fil run) in
  Copy (Plain 5) (Plain 0) fil run = Some (3, Some e, σ')
  ∧ input (σ' 5%nat) = "out"
  ∧ ReadAll 5 (Plain 0) fil cmdStore = Some (EmptyString, Some e, σ').
Proof.
  intros fil run e σ'.
  assert (HC : Copy (Plain 5) (Plain 0) fil run = Some (3, Some e, σ'))
    by reflexivity.
  split; [exact HC|]. split; [reflexivity|].
  apply (ReadAll_error 5 (Plain 0) fil cmdStore 3 e σ' HC).
Defined.

(** ** A call whose stages all succeed *)






(** ** The report *)

Lemma lines_cons_ne s : ∃ l ls, lines s = l :: ls.
Proof.
  induction s as [|c s (l & ls & IH)]; simpl; [by eexists _, _|].
  destruct (Ascii.eqb c LF); [by eexists _, _|].
  rewrite IH. by eexists _, _.
Qed.

Lemma concat_cons_cons sep x y ys :
  String.concat sep (x :: y :: ys) = x +:+ sep +:+ String.concat sep (y :: ys).
Proof. reflexivity. Qed.

(** Pushing a byte onto the first of the indented lines. *)
Lemma concat_tab_push c l ls :
  String.concat str_nl (map (String TAB) (String c l :: ls))
  = match String.concat str_nl (map (String TAB) (l :: ls)) with
    | String t rest => String t (String c rest)
    | EmptyString => EmptyString
    end.
Proof. destruct ls as [|l' ls]; reflexivity. Qed.

Lemma replaceFrom_nl_cons c s :
  replaceFrom str_nl str_nl_tab 0 (String c s)
  = if Ascii.eqb c LF
    then str_nl_tab +:+ replaceFrom str_nl str_nl_tab 0 s
    else String c (replaceFrom str_nl str_nl_tab 0 s).
Proof.
  cbn [replaceFrom]. unfold str_nl at 1. cbn [String.prefix].
  destruct (Ascii.eqb_spec c LF) as [->|Hne].
  - destruct (ascii_dec LF LF); [|done]. by destruct s.
  - destruct (ascii_dec LF c) as [Heq|_]; [by subst|done].
Qed.

(** Replacing every newline by a newline and a tab is indenting every line
    but the first. *)
Lemma ReplaceAll_tabIndented msg :
  String TAB (strings_ReplaceAll msg str_nl str_nl_tab) = tabIndented msg.
Proof.
  change (strings_ReplaceAll msg str_nl str_nl_tab)
    with (replaceFrom str_nl str_nl_tab 0 msg).
  unfold tabIndented.
  induction msg as [|c s IH]; [reflexivity|].
  rewrite replaceFrom_nl_cons. cbn [lines].
  destruct (lines_cons_ne s) as (l & ls & Hl). rewrite Hl in *.
  destruct (Ascii.eqb c LF).
  - cbn [map]. cbn [map] in IH. rewrite concat_cons_cons, <- IH. reflexivity.
  - rewrite concat_tab_push, <- IH. reflexivity.
Qed.

Lemma part_reportEntry c o :
  part c (match o with Some e => Some (Error e) | None => None end)
  = reportEntry (CopyResult c o).
Proof.
  unfold reportEntry, part. simpl. destruct o as [e|].
  - rewrite <- ReplaceAll_tabIndented. f_equal.
  - f_equal.
Qed.

Lemma Error_copyError_report results :
  Error (copyError results) = report results.
Proof.
  cbn [Error]. unfold report, strings_Join.
  change (str_nl +:+ EmptyString +:+ str_nl) with str_nl_nl. f_equal.
  induction results as [|[c o] rs IH]; [done|].
  cbn [map]. rewrite IH. f_equal. apply part_reportEntry.
Qed.

(** C6. The message of the error [Copy] returns is the report of its
    outcomes: for every stage, in the order of the pipeline, the descriptor
    of the stream the stage reads from, then on the next line the message of
    its error with a tab before each of its lines, or the marker of success
    after a tab; and an empty line between the entries of two stages. *)
Theorem Copy_error_message (dst src : stream) (fil : list stream)
    (σ : store) (n : int64) (e : error) (σ' : store) :
  Copy dst src fil σ = Some (n, Some e, σ') →
  let rs := resultsOf dst src fil σ in
  Error e = report rs
  ∧ Error e = copyError_Error rs
  ∧ length rs = (length fil + 1)%nat
  ∧ ∀ (k : nat) (r : copyResult),
      rs !! k = Some r →
      ∃ ev,
        stagesOf dst src fil σ !! k = Some ev
        ∧ (src :: fil) !! k = Some (ev_reader ev)
        ∧ cmd r = cmdString (ev_reader ev) (ev_done ev)
        ∧ err r = errors_Join [ev_err ev; ev_closeErr ev].
Proof.
  intros HC rs.
  rewrite (Copy_error_aggregate _ _ _ _ _ _ _ HC).
  split; [apply Error_copyError_report|]. split; [done|]. split.
  - unfold rs. rewrite resultsOf_stages, length_map. apply stagesOf_length.
  - intros k r Hr. unfold rs in Hr.
    rewrite resultsOf_stages, map_fmap, list_lookup_fmap in Hr.
    destruct (stagesOf dst src fil σ !! k) as [ev|] eqn:Hev; [|done].
    injection Hr as <-. exists ev. split; [done|].
    destruct (stagesOf_position _ _ _ _ _ _ Hev) as (Hk & Hi & Ht).
    split; [|done].
    apply stageReader_position. rewrite <- Hi. apply (task_reader _ _ _ _ Ht).
Qed.

Lemma Copy_error_message_witness :
  let dst := Plain 3 in
  let src := Plain 0 in
  let fil := [Plain 1; Plain 2] in
  let e := copyError (resultsOf dst src fil errStore) in
  Copy dst src fil errStore
  = Some (0, Some e, lastStore errStore (stagesOf dst src fil errStore))
  ∧ Error e
    = "source reader" +:+ str_nl_tab +:+ "read failed" +:+ str_nl_nl
      +:+ "transform 1" +:+ str_nl_tab +:+ "<success>" +:+ str_nl_nl
      +:+ "<struct { io.Reader; io.Writer }>" +:+ str_nl_tab
      +:+ "processing failed".
Proof.
  intros dst src fil e.
  assert (HC : Copy dst src fil errStore
               = Some (0, Some e,
                       lastStore errStore (stagesOf dst src fil errStore)))
    by reflexivity.
  split; [exact HC|].
  destruct (Copy_error_message dst src fil errStore _ _ _ HC) as (Hmsg & _).
  rewrite Hmsg. reflexivity.
Defined.

(** ** Any order of completion

    The tasks of [Copy] run concurrently and end in an order of their own.
    What the aggregate and the count look like does not depend on that
    order: each task stores at the index of its stage, and the sum does not
    depend on the order of its terms. *)

Section AnyOrder.
Variables (dst src : stream) (fil : list stream).


Lemma stage_shape (i : Z) todo st :
  -1 ≤ i < Z.of_nat (length fil) → i ∉ todo → shape fil (i :: todo) st →
  ∃ st',
    stage dst src fil i st = Some st'
    ∧ shape fil todo st'
    ∧ map ev_offset (history st') = map ev_offset (history st) ++ [i + 1].
Proof.
  intros Hi Hnew Hshape.
  destruct (stageReader_in_range src fil (Z.to_nat (i + 1))) as [r Hr]; [lia|].
  destruct (stageWriter_in_range dst fil (Z.to_nat (i + 1))) as [w Hw]; [lia|].
  replace (Z.of_nat (Z.to_nat (i + 1)) - 1) with i in Hr, Hw by lia.
  unfold stage. rewrite Hr, Hw. simpl. unfold task.
  destruct (io_Copy w r (heap st)) as [[n e] σ1] eqn:Hcopy.
  set (closing := match stream_Close w σ1 with
                  | Some (ce, σ') => (ce, σ')
                  | None => (None, σ1)
                  end).
  destruct closing as [closeErr σ2] eqn:Hclose. subst closing.
  pose proof (shape_length _ _ _ Hshape) as Hlen.
  unfold set. rewrite bool_decide_eq_true_2 by (rewrite Hlen; lia).
  simpl. eexists. split; [reflexivity|].
  split; [|cbn [history]; by rewrite map_app].
  split; simpl.
  - by rewrite length_insert.
  - intros ev Hev. apply elem_of_app in Hev as [Hev|Hev].
    + destruct (shape_results _ _ _ Hshape ev Hev) as [Hpos Hres].
      split; [done|]. rewrite list_lookup_insert_ne; [done|].
      pose proof (shape_fresh _ _ _ Hshape ev i Hev) as Hne.
      intros Heq. apply Hne; [left|]. lia.
    + apply list_elem_of_singleton in Hev as ->. simpl. split; [lia|].
      apply list_lookup_insert_eq. rewrite Hlen. lia.
  - intros ev j Hev Hj. apply elem_of_app in Hev as [Hev|Hev].
    + apply (shape_fresh _ _ _ Hshape ev j Hev). by right.
    + apply list_elem_of_singleton in Hev as ->. simpl.
      intros Heq. apply Hnew. by replace i with j by lia.
  - rewrite omap_countOf_app. simpl. rewrite <- (shape_count _ _ _ Hshape).
    destruct e; [by rewrite (right_id_L [] (++))|done].
Qed.

Lemma runStages_shape todo st :
  NoDup todo →
  (∀ i, i ∈ todo → -1 ≤ i < Z.of_nat (length fil)) →
  shape fil todo st →
  ∃ st',
    runStages dst src fil todo st = Some st'
    ∧ shape fil [] st'
    ∧ map ev_offset (history st')
      = map ev_offset (history st) ++ map (fun i => i + 1) todo.
Proof.
  revert st. induction todo as [|i todo IH]; intros st Hnd Hrange Hshape.
  - exists st. simpl. by rewrite (right_id_L [] (++)).
  - apply NoDup_cons in Hnd as [Hnew Hnd].
    destruct (stage_shape i todo st) as (st1 & Hst & Hshape1 & Hoff1);
      [apply Hrange; by left|done|done|].
    destruct (IH st1 Hnd) as (st' & Hrun & Hshape' & Hoff');
      [intros j Hj; apply Hrange; by right|done|].
    exists st'. simpl. rewrite Hst. simpl. split; [done|]. split; [done|].
    by rewrite Hoff', Hoff1, <- (assoc_L (++)).
Qed.

(** X2. In whatever order the tasks end, [Copy] does not panic, every task
    stores once, at the index of its stage, the slice holds the outcome of
    every task at that index, and the total is the wrapped sum of the
    counts of the tasks whose transfer returned nil. *)
Lemma runStages_any_order (σ : store) (order : list Z) :
  order ≡ₚ stageIndices fil →
  ∃ st,
    runStages dst src fil order (initState fil σ) = Some st
    ∧ length (results st) = (length fil + 1)%nat
    ∧ map ev_offset (history st) = map (fun i => i + 1) order
    ∧ (∀ ev, ev ∈ history st →
         results st !! Z.to_nat (ev_offset ev) = Some (resultOf ev))
    ∧ sum64 (count st)
      = wrap64 (sumZ (map ev_n (List.filter transferOk (history st)))).
Proof.
  intros Hperm.
  destruct (runStages_shape order (initState fil σ)) as (st & Hrun & Hs & Hoff).
  - rewrite Hperm. apply NoDup_seqZ.
  - intros i Hi. rewrite Hperm in Hi. unfold stageIndices in Hi.
    apply list_elem_of_lookup in Hi as [k Hk].
    apply lookup_seqZ in Hk. lia.
  - split; simpl; try done.
    + by rewrite length_replicate.
    + intros ev Hev. by apply elem_of_nil in Hev.
    + intros ev i Hev. by apply elem_of_nil in Hev.
  - exists st. split; [done|]. split; [apply (shape_length _ _ _ Hs)|].
    split; [done|]. split.
    + intros ev Hev. apply (shape_results _ _ _ Hs ev Hev).
    + by rewrite sum64_wrap, (shape_count _ _ _ Hs), counts_filter.
Qed.
End AnyOrder.

(** * Further properties of the copy engine and the filter adapter *)

(** ** When [Copy] returns an error *)

(** X1. [Copy] returns a nil error exactly when the [io.Copy] of every
    stage returned a nil error. The error of a close does not enter: it is
    stored in the aggregate, and the aggregate is returned only when some
    transfer failed. *)
Theorem Copy_error_iff_transfer (dst src : stream) (fil : list stream)
    (σ : store) :
  ∃ n err σ',
    Copy dst src fil σ = Some (n, err, σ')
    ∧ (err = None
       ↔ Forall (fun ev => ev_err ev = None) (stagesOf dst src fil σ)).
Proof.
  pose proof (Copy_unfold dst src fil σ) as HC. cbv zeta in HC.
  eexists _, _, _. split; [exact HC|].
  rewrite <- firstErr_None.
  destruct (firstErr (stagesOf dst src fil σ)); split; done.
Qed.

Lemma firstErr_Some hist x :
  firstErr hist = Some x → ∃ ev, ev ∈ hist ∧ ev_err ev = Some x.
Proof.
  induction hist as [|ev hist IH]; simpl; [done|].
  destruct (ev_err ev) as [e|] eqn:He.
  - intros [= <-]. exists ev. split; [by left|done].
  - intros Hx. destruct (IH Hx) as (ev' & Hin & Hev').
    exists ev'. split; [by right|done].
Qed.

Lemma length_omap_le {A B} (f : A → option B) (l : list A) :
  (length (omap f l) ≤ length l)%nat.
Proof.
  induction l as [|a l IH]; [done|].
  change (omap f (a :: l))
    with (match f a with Some b => b :: omap f l | None => omap f l end).
  destruct (f a); simpl; lia.
Qed.

(** [errors.Is] finds in the aggregate of a call the error of the transfer
    and the error of the close of each of its stages. *)
Lemma aggregate_Is dst src fil σ ev x :
  ev ∈ stagesOf dst src fil σ →
  ev_err ev = Some x ∨ ev_closeErr ev = Some x →
  is_ (copyError (resultsOf dst src fil σ)) x = true.
Proof.
  intros Hev Hx. rewrite resultsOf_stages.
  assert (Hjoin : ∃ j, errors_Join [ev_err ev; ev_closeErr ev] = Some j
                       ∧ is_ j x = true).
  { destruct Hx as [Hx|Hx].
    - pose proof (errors_Join_Is_l x (ev_closeErr ev)) as His.
      rewrite <- Hx in His at 1.
      destruct (errors_Join [ev_err ev; ev_closeErr ev]) as [j|]; [|done].
      by exists j.
    - pose proof (errors_Join_Is_r (ev_err ev) x) as His.
      rewrite <- Hx in His at 1.
      destruct (errors_Join [ev_err ev; ev_closeErr ev]) as [j|]; [|done].
      by exists j. }
  destruct Hjoin as (j & Hj & His).
  apply (is_copyError _ (cmdString (ev_reader ev) (ev_done ev)) j); [|done].
  apply list_elem_of_fmap. exists ev. split; [|done].
  unfold resultOf. by rewrite Hj.
Qed.

(** X3. The error [Copy] returns is never an aggregate of successes: some
    stage's transfer failed, its error is found by [errors.Is], and [Unwrap]
    yields between one and [len(fil)+1] errors. *)
Theorem Copy_error_not_empty (dst src : stream) (fil : list stream)
    (σ : store) (n : int64) (e : error) (σ' : store) :
  Copy dst src fil σ = Some (n, Some e, σ') →
  (∃ ev x,
     ev ∈ stagesOf dst src fil σ
     ∧ ev_err ev = Some x
     ∧ errors_Is (Some e) (Some x) = true)
  ∧ (0 < length (Unwrap e) ≤ length fil + 1)%nat.
Proof.
  intros HC.
  pose proof (Copy_error_aggregate _ _ _ _ _ _ _ HC) as ->.
  rewrite Copy_unfold in HC. cbv zeta in HC.
  destruct (firstErr (stagesOf dst src fil σ)) as [x|] eqn:Hfirst; [|done].
  destruct (firstErr_Some _ _ Hfirst) as (ev & Hev & Hx).
  assert (Hun : Unwrap (copyError (resultsOf dst src fil σ))
                = omap (fun ev => errors_Join [ev_err ev; ev_closeErr ev])
                    (stagesOf dst src fil σ)).
  { simpl. rewrite resultsOf_stages. apply nonNil_map_resultOf. }
  split.
  - exists ev, x. split; [done|]. split; [done|].
    cbn [errors_Is]. apply (aggregate_Is dst src fil σ ev x Hev). by left.
  - rewrite Hun. split.
    + set (l := omap (fun ev => errors_Join [ev_err ev; ev_closeErr ev])
                  (stagesOf dst src fil σ)).
      assert (Hin : ∃ j, j ∈ l).
      { unfold l.
        destruct (errors_Join [ev_err ev; ev_closeErr ev]) as [j|] eqn:Hj.
        - exists j. apply list_elem_of_omap. by exists ev.
        - rewrite Hx, errors_Join_two in Hj. by destruct (ev_closeErr ev). }
      destruct Hin as [j Hj].
      destruct l; [|simpl; lia]. by apply elem_of_nil in Hj.
    + etrans; [apply length_omap_le|]. by rewrite stagesOf_length.
Qed.

Lemma Copy_error_not_empty_witness :
  let dst := Plain 3 in
  let src := Plain 0 in
  let fil := [Plain 1; Plain 2] in
  let e := copyError (resultsOf dst src fil errStore) in
  Copy dst src fil errStore
  = Some (0, Some e, lastStore errStore (stagesOf dst src fil errStore))
  ∧ (0 < length (Unwrap e) ≤ length fil + 1)%nat.
Proof.
  intros dst src fil e.
  assert (HC : Copy dst src fil errStore
               = Some (0, Some e,
                       lastStore errStore (stagesOf dst src fil errStore)))
    by reflexivity.
  split; [exact HC|].
  destruct (Copy_error_not_empty dst src fil errStore _ _ _ HC) as [_ Hlen].
  exact Hlen.
Defined.

(** ** A filter as the destination of a stage *)

(** What a stage does whose writer is a filter around a handle that can be
    written to, by the path [io.Copy] takes. *)
Lemma filter_stage dst src fil σ (k : nat) ev f :
  stagesOf dst src fil σ !! k = Some ev →
  ev_writer ev = Filtered f →
  isWriteBuffer (ev_start ev (buf f)) = true →
  let r := ev_reader ev in
  let close := match closer (spec (ev_start ev (buf f))) with
               | Some res => res
               | None => None
               end in
  ev_closeErr ev = close
  ∧ if hasWriteTo r (ev_start ev)
    then
      copyBuffer (Filtered f) r (ev_start ev)
      = (ev_n ev, ev_err ev, ev_copied ev)
      ∧ closes (ev_done ev (buf f)) = S (closes (ev_start ev (buf f)))
    else
      ∃ e1 σ1,
        copyBuffer (Plain (buf f)) r (ev_start ev) = (ev_n ev, e1, σ1)
        ∧ ev_err ev = match e1 with Some _ => e1 | None => close end
        ∧ closes (ev_done ev (buf f)) = S (S (closes (ev_start ev (buf f)))).
Proof.
  intros Hev Hw Hwb r close.
  destruct (stagesOf_position _ _ _ _ _ _ Hev) as (_ & _ & Ht).
  pose proof (task_transfer _ _ _ _ Ht) as Hcopy.
  pose proof (task_close _ _ _ _ Ht) as Hclose.
  rewrite Hw in Hcopy, Hclose. fold r in Hcopy.
  cbn [stream_Close] in Hclose. unfold io_Copy in Hcopy.
  destruct (hasWriteTo r (ev_start ev)).
  - destruct (copyBuffer_frame _ _ _ _ _ _ Hcopy) as [Hs Hc].
    unfold filter_Close in Hclose.
    rewrite (isWriteBuffer_sameSpec _ _ _ Hs), Hwb in Hclose.
    destruct (obj_Close_frame (buf f) (ev_copied ev)) as (_ & Hcl & Hres).
    destruct (obj_Close (buf f) (ev_copied ev)) as [ce σ2].
    destruct Hclose as [-> ->]. simpl in Hcl, Hres.
    split; [by rewrite Hres, Hs|]. split; [done|]. by rewrite Hcl, Hc.
  - unfold filter_ReadFrom in Hcopy. rewrite Hwb in Hcopy. cbn [negb] in Hcopy.
    unfold io_Copy_plain in Hcopy.
    destruct (copyBuffer (Plain (buf f)) r (ev_start ev))
      as [[n1 e1] σ1] eqn:Hinner.
    destruct (copyBuffer_frame _ _ _ _ _ _ Hinner) as [Hs1 Hc1].
    destruct (obj_Close_frame (buf f) σ1) as (Hs2 & Hcl2 & Hres2).
    destruct (obj_Close (buf f) σ1) as [ce1 σ2] eqn:Hclose1.
    simpl in Hs2, Hcl2, Hres2.
    injection Hcopy as Hn Herr Hσ. subst σ2.
    unfold filter_Close in Hclose.
    rewrite (isWriteBuffer_sameSpec _ _ _ Hs2),
      (isWriteBuffer_sameSpec _ _ _ Hs1), Hwb in Hclose.
    destruct (obj_Close_frame (buf f) (ev_copied ev)) as (_ & Hcl3 & Hres3).
    destruct (obj_Close (buf f) (ev_copied ev)) as [ce σ3].
    destruct Hclose as [-> ->]. simpl in Hcl3, Hres3.
    split; [by rewrite Hres3, Hs2, Hs1|].
    exists e1, σ1. split; [by rewrite Hn|]. split.
    + rewrite <- Herr, Hres2, Hs1. by destruct e1.
    + by rewrite Hcl3, Hcl2, Hc1.
Qed.



(** X5. When the source has no [WriteTo] and the bytes reach the handle of
    the filter without error, an error of the handle's [Close] is what
    [io.Copy] returns for the stage: the stage sends no count, the outcome
    it stores joins that error with the same error of the second close, and
    [Copy] returns an error. *)
Theorem filter_close_error_fails_stage (dst src : stream)
    (fil : list stream) (σ : store) (k : nat) (ev : event) (f : filter)
    (e : error) :
  stagesOf dst src fil σ !! k = Some ev →
  ev_writer ev = Filtered f →
  isWriteBuffer (ev_start ev (buf f)) = true →
  closer (spec (ev_start ev (buf f))) = Some (Some e) →
  hasWriteTo (ev_reader ev) (ev_start ev) = false →
  snd (fst (copyBuffer (Plain (buf f)) (ev_reader ev) (ev_start ev))) = None →
  ev_err ev = Some e
  ∧ ev_closeErr ev = Some e
  ∧ countOf ev = None
  ∧ err <$> resultsOf dst src fil σ !! k = Some (Some (joinError [e; e]))
  ∧ ∃ n agg σ', Copy dst src fil σ = Some (n, Some agg, σ').
Proof.
  intros Hev Hw Hwb Hcl Hwt Hok.
  destruct (filter_stage _ _ _ _ _ _ _ Hev Hw Hwb) as [Hce Hpath].
  rewrite Hwt in Hpath. destruct Hpath as (e1 & σ1 & Hinner & Herr & _).
  rewrite Hinner in Hok. simpl in Hok. subst e1.
  rewrite Hcl in Hce, Herr.
  split; [done|]. split; [done|]. split; [unfold countOf; by rewrite Herr|].
  split.
  - rewrite resultsOf_stages, map_fmap, list_lookup_fmap, Hev. simpl.
    by rewrite Herr, Hce.
  - pose proof (Copy_unfold dst src fil σ) as HC. cbv zeta in HC.
    destruct (firstErr (stagesOf dst src fil σ)) eqn:Hfirst;
      [by eexists _, _, _|].
    apply firstErr_None in Hfirst.
    rewrite Forall_forall in Hfirst.
    assert (Hnone : ev_err ev = None).
    { apply Hfirst. apply list_elem_of_lookup. by exists k. }
    congruence.
Qed.

Lemma filter_close_error_fails_stage_witness :
  let dst := Plain 3 in
  let src := Plain 0 in
  let fil := [NewFilter 1] in
  let ev := stageAt dst src fil plainStore 0 in
  ev_err ev = Some errClose
  ∧ ev_closeErr ev = Some errClose
  ∧ countOf ev = None
  ∧ err <$> resultsOf dst src fil plainStore !! 0%nat
    = Some (Some (joinError [errClose; errClose]))
  ∧ ∃ n agg σ', Copy dst src fil plainStore = Some (n, Some agg, σ').
Proof.
  intros dst src fil ev.
  apply (filter_close_error_fails_stage dst src fil plainStore 0 ev
           (Filter 1) errClose); reflexivity.
Defined.



(** ** A call without filters *)

(** The one task of a call without filters. *)
Lemma stagesOf_nofilter dst src σ :
  ∃ ev,
    stagesOf dst src [] σ = [ev]
    ∧ ev_start ev = σ
    ∧ ev_reader ev = src
    ∧ ev_writer ev = dst
    ∧ taskOf dst src [] ev.
Proof.
  destruct (stagesOf_lookup dst src [] σ 0) as (ev & Hev & Hi & Ht);
    [simpl; lia|].
  pose proof (stagesOf_length dst src [] σ) as Hlen.
  pose proof (stagesOf_chained dst src [] σ) as Hch.
  destruct (stagesOf dst src [] σ) as [|ev0 [|ev1 rest]];
    simpl in Hlen; try lia.
  injection Hev as ->. simpl in Hch. destruct Hch as [Hstart _].
  pose proof (task_reader _ _ _ _ Ht) as Hr.
  pose proof (task_writer _ _ _ _ Ht) as Hw.
  rewrite Hi in Hr, Hw. unfold stageReader, stageWriter in *.
  simpl in Hr, Hw. injection Hr as Hr. injection Hw as Hw.
  by exists ev.
Qed.

(** X9. When [Copy] without filters returns a nil error, the destination
    holds what it held before followed by every byte the source had to
    deliver, in order, and the count is the number of these bytes (wrapped
    to [int64]). *)
Theorem Copy_delivers (dst src : stream) (σ : store) (n : int64)
    (σ' : store) :
  Copy dst src [] σ = Some (n, None, σ') →
  let data := pending (σ (readerRef src)) in
  input (σ' (writerRef dst)) = input (σ (writerRef dst)) +:+ data
  ∧ n = wrap64 (Z.of_nat (String.length data)).
Proof.
  intros HC data.
  destruct (stagesOf_nofilter dst src σ) as (ev & Hst & Hstart & Hr & Hw & Ht).
  rewrite Copy_unfold in HC. cbv zeta in HC. rewrite Hst in HC.
  simpl in HC.
  change (omap countOf [ev])
    with (match countOf ev with Some c => [c] | None => [] end) in HC.
  unfold countOf in HC.
  destruct (ev_err ev) as [e|] eqn:Herr; [done|].
  injection HC as <- <-.
  pose proof (task_transfer _ _ _ _ Ht) as Hcopy.
  rewrite Hw, Hr, Hstart in Hcopy.
  destruct (io_Copy_took _ _ _ _ _ _ Hcopy) as (moved & Hin & Hn & Hall).
  rewrite (Hall Herr) in Hin, Hn. fold data in Hin, Hn.
  split.
  - pose proof (task_close _ _ _ _ Ht) as Hclose. rewrite Hw in Hclose.
    destruct (stream_Close dst (ev_copied ev)) as [[ce σ2]|] eqn:Hc.
    + destruct Hclose as [_ ->].
      by rewrite (stream_Close_sameInputs _ _ _ _ Hc).
    + by destruct Hclose as [_ ->].
  - rewrite <- Hn. reflexivity.
Qed.

Lemma Copy_delivers_witness :
  let σ' := lastStore pipeStore (stagesOf (Plain 2) (Plain 0) [] pipeStore) in
  Copy (Plain 2) (Plain 0) [] pipeStore = Some (4, None, σ')
  ∧ input (σ' 2%nat) = "data".
Proof.
  intros σ'.
  assert (HC : Copy (Plain 2) (Plain 0) [] pipeStore = Some (4, None, σ'))
    by reflexivity.
  split; [exact HC|].
  destruct (Copy_delivers (Plain 2) (Plain 0) pipeStore 4 σ' HC) as [Hin _].
  exact Hin.
Defined.

(** ** More on ReadAll *)

(** The [Copy] of [ReadAll] for a reader of the caller and no filter. *)
Lemma ReadAll_copy (b r : nat) (σ : store) :
  r ≠ b →
  ∃ n σ',
    Copy (Plain b) (Plain r) [] (upd σ b newBuilder)
    = Some (n, notEOF (readErr (spec (σ r))) ≫= λ e,
               Some (copyError
                       [CopyResult (cmdString (Plain r) σ')
                          (Some (joinError [e]))]),
            σ')
    ∧ (notEOF (readErr (spec (σ r))) = None → input (σ' b) = pending (σ r)).
Proof.
  intros Hne. set (σ0 := upd σ b newBuilder).
  assert (Hr : σ0 r = σ r) by (by apply upd_ne).
  assert (Hb : σ0 b = newBuilder) by apply upd_eq.
  destruct (stagesOf_nofilter (Plain b) (Plain r) σ0)
    as (ev & Hst & Hstart & Hrd & Hwr & Ht).
  pose proof (task_transfer _ _ _ _ Ht) as Hcopy.
  pose proof (task_close _ _ _ _ Ht) as Hclose.
  rewrite Hwr, Hrd, Hstart, io_Copy_plain_eq in Hcopy.
  rewrite Hwr in Hclose.
  unfold io_Copy_plain, copyBuffer in Hcopy. cbn [readerRef] in Hcopy.
  rewrite Hr in Hcopy.
  assert (Hcopied :
    ev_err ev = notEOF (readErr (spec (σ r)))
    ∧ spec (ev_copied ev b) = stringsBuilder
    ∧ input (ev_copied ev b) = pending (σ r)).
  { destruct (pending (σ r)) as [|c rest] eqn:Hp.
    - injection Hcopy as _ <- <-. by rewrite Hb.
    - cbn [stream_Write] in Hcopy. unfold obj_Write in Hcopy.
      rewrite upd_ne, Hb in Hcopy by done. simpl in Hcopy.
      injection Hcopy as _ <- <-. by rewrite upd_eq. }
  destruct Hcopied as (Herr & Hspec & Hin).
  cbn [stream_Close] in Hclose. rewrite Hspec in Hclose. simpl in Hclose.
  destruct Hclose as [Hce Hdone].
  rewrite Copy_unfold. cbv zeta. rewrite resultsOf_stages, Hst.
  simpl. rewrite Herr. unfold resultOf. rewrite Hrd, Hce, Herr, Hdone.
  destruct (notEOF (readErr (spec (σ r)))) as [e|] eqn:Hend; simpl.
  - eexists _, _. split; [reflexivity|done].
  - eexists _, _. split; [reflexivity|]. intros _. exact Hin.
Qed.

(** X7. [ReadAll] on a reader of the caller that ends with [io.EOF], without
    filters, returns every byte the reader had to deliver less the trailing
    carriage returns and line feeds, and a nil error. *)
Theorem ReadAll_reader (b r : nat) (σ : store) :
  r ≠ b →
  readErr (spec (σ r)) = io_EOF →
  ∃ σ',
    ReadAll b (Plain r) [] σ
    = Some (strings_TrimRight (pending (σ r)) str_cr_lf, None, σ').
Proof.
  intros Hne Heof.
  destruct (ReadAll_copy b r σ Hne) as (n & σ' & HC & Hin).
  rewrite Heof in HC, Hin. change (notEOF io_EOF) with (@None error) in *.
  exists σ'. unfold ReadAll. rewrite HC. simpl. by rewrite Hin.
Qed.

Lemma ReadAll_reader_witness :
  ∃ σ',
    ReadAll 1 (Plain 0) [] (textStore ("a b " +:+ str_nl +:+ str_cr_lf))
    = Some ("a b ", None, σ').
Proof.
  destruct (ReadAll_reader 1 0 (textStore ("a b " +:+ str_nl +:+ str_cr_lf)))
    as [σ' HR]; [discriminate|reflexivity|].
  exists σ'. exact HR.
Defined.

(** X8. The error [ReadAll] returns is the aggregate of its [Copy], as it
    is: the string is empty, and [errors.Is] finds in the error the error of
    the transfer and of the close of every stage. *)
Theorem ReadAll_error_is (b : nat) (r : stream) (f : list stream)
    (σ : store) (s : string) (e : error) (σ' : store) :
  ReadAll b r f σ = Some (s, Some e, σ') →
  let run := upd σ b newBuilder in
  s = EmptyString
  ∧ e = copyError (resultsOf (Plain b) r f run)
  ∧ ∀ ev x,
      ev ∈ stagesOf (Plain b) r f run →
      ev_err ev = Some x ∨ ev_closeErr ev = Some x →
      errors_Is (Some e) (Some x) = true.
Proof.
  intros HR run. unfold ReadAll in HR. fold run in HR.
  destruct (Copy (Plain b) r f run) as [[[n err] σ1]|] eqn:HC; [|done].
  simpl in HR. destruct err as [e'|]; [|done].
  injection HR as <- <- <-.
  pose proof (Copy_error_aggregate _ _ _ _ _ _ _ HC) as ->.
  split; [done|]. split; [done|].
  intros ev x Hev Hx. cbn [errors_Is]. by eapply aggregate_Is.
Qed.

Lemma ReadAll_error_is_witness :
  let fil := [NewFilter 2] in
  let run := upd cmdStore 5 newBuilder in
  let e := copyError (resultsOf (Plain 5) (Plain 0) fil run) in
  let σ' := lastStore run (stagesOf (Plain 5) (Plain 0) fil run) in
  ReadAll 5 (Plain 0) fil cmdStore = Some (EmptyString, Some e, σ')
  ∧ errors_Is (Some e) (Some ErrReadOnly) = true.
Proof.
  intros fil run e σ'.
  assert (HR : ReadAll 5 (Plain 0) fil cmdStore
               = Some (EmptyString, Some e, σ')) by reflexivity.
  split; [exact HR|].
  destruct (ReadAll_error_is 5 (Plain 0) fil cmdStore _ _ _ HR)
    as (_ & _ & His).
  apply (His (stageAt (Plain 5) (Plain 0) fil run 0));
    [apply list_elem_of_lookup; exists 0%nat; reflexivity|left; reflexivity].
Defined.

(** ** Any order of completion, an instance *)

Lemma runStages_any_order_witness :
  [0; -1] ≡ₚ stageIndices [Plain 1]
  ∧ ∃ st,
      runStages (Plain 2) (Plain 0) [Plain 1] [0; -1]
        (initState [Plain 1] pipeStore) = Some st
      ∧ length (results st) = (length [Plain 1] + 1)%nat
      ∧ map ev_offset (history st) = map (fun i => i + 1) [0; -1]
      ∧ (∀ ev, ev ∈ history st →
           results st !! Z.to_nat (ev_offset ev) = Some (resultOf ev))
      ∧ sum64 (count st)
        = wrap64 (sumZ (map ev_n (List.filter transferOk (history st)))).
Proof.
  split; [exact (perm_swap (-1) 0 [])|].
  apply (runStages_any_order (Plain 2) (Plain 0) [Plain 1] pipeStore [0; -1]).
  exact (perm_swap (-1) 0 []).
Defined.

(** * The helper of the tests of package ctr *)

Lemma slices_Equal_eq a b : slices_Equal a b = true ↔ a = b.
Proof.
  revert b. induction a as [|x a IH]; intros [|y b]; simpl; try done.
  rewrite andb_true_iff, String.eqb_eq, IH. split.
  - by intros [-> ->].
  - by intros [= -> ->].
Qed.

(** The slice expression [args[len(args)-len(suffix):]] is [suffix] exactly
    when [args] ends with [suffix]. *)
Lemma drop_suffix (sfx args : list string) :
  (length sfx ≤ length args)%nat
  ∧ drop (length args - length sfx) args = sfx
  ↔ sfx `suffix_of` args.
Proof.
  split.
  - intros [Hlen Hdrop]. exists (take (length args - length sfx) args).
    by rewrite <- Hdrop at 2; rewrite take_drop.
  - intros [k ->]. rewrite length_app. split; [lia|].
    replace (length k + length sfx - length sfx)%nat with (length k) by lia.
    by rewrite drop_app_length.
Qed.

(** X10. [callSuffix] answers true exactly when some recorded call has an
    argument list that ends with the given arguments; in particular it
    answers false for no calls at all, and true for an empty suffix as soon
    as there is a call. *)
Theorem callSuffix_spec (calls : list Call) (sfx : list string) :
  (callSuffix calls sfx = true
   ↔ ∃ call, call ∈ calls ∧ sfx `suffix_of` Args call)
  ∧ callSuffix [] sfx = false
  ∧ (callSuffix calls [] = true ↔ calls ≠ []).
Proof.
  assert (Hmain : ∀ cs s,
    callSuffix cs s = true ↔ ∃ call, call ∈ cs ∧ s `suffix_of` Args call).
  { intros cs s. induction cs as [|call rest IH]; simpl.
    - split; [done|]. intros (c & Hc & _). by apply elem_of_nil in Hc.
    - pose proof (drop_suffix s (Args call)) as Hds.
      destruct (Nat.leb_spec (length s) (length (Args call))) as [Hle|Hgt].
      + destruct (slices_Equal _ s) eqn:Heq.
        * split; [|done]. intros _. exists call. split; [by left|].
          apply Hds. split; [done|]. by apply slices_Equal_eq.
        * rewrite IH. split.
          -- intros (c & Hc & Hs). exists c. split; [by right|done].
          -- intros (c & Hc & Hs). apply elem_of_cons in Hc as [->|Hc].
             ++ apply Hds in Hs as [_ Hs]. apply slices_Equal_eq in Hs.
                congruence.
             ++ by exists c.
      + rewrite IH. split.
        * intros (c & Hc & Hs). exists c. split; [by right|done].
        * intros (c & Hc & Hs). apply elem_of_cons in Hc as [->|Hc].
          -- apply Hds in Hs as [Hle _]. lia.
          -- by exists c. }
  split; [apply Hmain|]. split; [done|].
  rewrite Hmain. split.
  - intros (c & Hc & _) ->. by apply elem_of_nil in Hc.
  - destruct calls as [|c rest]; [done|]. intros _.
    exists c. split; [by left|]. apply suffix_nil.
Qed.

(** * Package ctr *)

Section Ctr.
Variable X : externals.

(** ** The controller CLI *)

Lemma findCli_spec (todo : list (list string)) (w : world X) :
  ∃ k,
    map fst (snd (findCli X todo w)) = map probeArgs (take k todo)
    ∧ ((∃ j,
          k = S j
          ∧ todo !! j = Some (fst (fst (findCli X todo w)))
          ∧ map snd (snd (findCli X todo w)) = replicate j true ++ [false])
       ∨ (k = length todo
          ∧ fst (fst (findCli X todo w)) = []
          ∧ map snd (snd (findCli X todo w)) = replicate k true)).
Proof.
  revert w. induction todo as [|cli rest IH]; intros w.
  - exists 0%nat. split; [done|]. right. done.
  - cbn [findCli].
    destruct (notFound X (probeArgs cli) w) as [missing w1] eqn:Hnf.
    destruct missing; cbn [negb].
    + destruct (IH w1) as (k & Hargs & Hcase).
      destruct (findCli X rest w1) as [[ctrcli w2] probes].
      exists (S k). cbn [fst snd map take] in *. split; [by rewrite Hargs|].
      destruct Hcase as [(j & -> & Hj & Hans)|(-> & Hnil & Hans)].
      * left. exists (S j). by rewrite Hans.
      * right. by rewrite Hans.
    + exists 1%nat. split; [done|]. left. by exists 0%nat.
Qed.

(** X11. [ctlMachine.doInit] asks the host for the version of the CLIs in
    the order docker, podman, nerdctl, lima nerdctl, and stops at the first
    one the host finds: that CLI is the prefix of the machine it returns,
    every CLI before it was reported missing and no CLI after it is asked
    for. It returns an error exactly when all four were asked for and all
    four are missing. *)
Theorem ctl_doInit_first_found (w : world X) :
  let res := fst (fst (ctl_doInit X w)) in
  let probes := snd (ctl_doInit X w) in
  ∃ k,
    map fst probes = map probeArgs (take k clis)
    ∧ match res with
      | inl cli =>
          ∃ j,
            k = S j
            ∧ clis !! j = Some cli
            ∧ map snd probes = replicate j true ++ [false]
      | inr e =>
          k = length clis
          ∧ map snd probes = replicate k true
          ∧ cError e
            = "no container CLI found: "
              +:+ "[[docker] [podman] [nerdctl] [lima nerdctl]]"
      end.
Proof.
  intros res probes. unfold res, probes, ctl_doInit.
  destruct (findCli_spec clis w) as (k & Hargs & Hcase).
  destruct (findCli X clis w) as [[ctrcli w1] ps].
  cbn [fst snd] in *. exists k.
  destruct Hcase as [(j & -> & Hj & Hans)|(-> & -> & Hans)].
  - assert (Hne : (length ctrcli =? 0)%nat = false).
    { destruct j as [|[|[|[|j]]]]; simpl in Hj; try done;
        by injection Hj as <-. }
    rewrite Hne. cbn [fst snd]. split; [done|]. by exists j.
  - change (length [] =? 0)%nat with true. cbn [fst snd].
    split; [done|]. split; [done|]. split; [done|]. reflexivity.
Qed.

(** ** The container machine *)

Lemma doDo_log args (s : sys X) :
  snd (snd (doDo X args s)) = snd s ++ [CallDo args].
Proof. unfold doDo. by destruct (command_Do X args s.1). Qed.

Lemma doRead_log args (s : sys X) :
  snd (snd (doRead X args s)) = snd s ++ [CallRead args].
Proof. unfold doRead. by destruct (command_Read X args s.1) as [[??]?]. Qed.

Lemma doExec_log args (s : sys X) :
  snd (snd (doExec X args s)) = snd s ++ [CallExec args].
Proof. unfold doExec. by destruct (command_Exec X args s.1). Qed.

(** Once [done] is set, [Command] fails and changes nothing. *)
Lemma machine_Command_done m arg (s : sys X) :
  m_done m = true →
  machine_Command X m arg s = (Fail errShutdown, m, s).
Proof.
  intros Hdone. unfold machine_Command, machine_init. by rewrite Hdone.
Qed.

Lemma machine_Shutdown_done m (s : sys X) :
  m_done m = true →
  ∃ e s',
    machine_Shutdown X m s = (e, m, s')
    ∧ (if m_Machine m
       then snd s' = snd s ++ [rmCall (m_hash m)]
       else s' = s).
Proof.
  intros Hdone. unfold machine_Shutdown. cbn [m_Machine m_hash].
  assert (Hm : MkMachine (m_name m) (m_args m) (m_Machine m) (m_once m)
                 (m_hash m) true = m).
  { destruct m. simpl in Hdone. by subst. }
  rewrite Hm. destruct (m_Machine m); cbn [negb].
  - pose proof (doDo_log ["container"; "rm"; "-f"; m_hash m] s) as Hlog.
    destruct (doDo X _ s) as [e s1]. by exists e, s1.
  - by exists None, s.
Qed.

(** [run] returns one outcome for each call. *)
Lemma run_length ops m (s : sys X) outs m' s' :
  run X ops m s = (outs, m', s') → length outs = length ops.
Proof.
  revert m s outs m' s'. induction ops as [|o ops IH]; intros m s outs m' s'.
  - by intros [= <- _ _].
  - destruct o as [arg|]; cbn [run].
    + destruct (machine_Command X m arg s) as [[b m1] s1].
      destruct (run X ops m1 s1) as [[outs1 m2] s2] eqn:Hrun.
      intros [= <- _ _]. simpl. f_equal. by eapply IH.
    + destruct (machine_Shutdown X m s) as [[e m1] s1].
      destruct (run X ops m1 s1) as [[outs1 m2] s2] eqn:Hrun.
      intros [= <- _ _]. simpl. f_equal. by eapply IH.
Qed.

Lemma run_done ops m (s : sys X) :
  m_done m = true →
  ∃ outs s' extra,
    run X ops m s = (outs, m, s')
    ∧ (∀ i arg, ops !! i = Some (OpCommand arg) →
         outs !! i = Some (Returned (Fail errShutdown)))
    ∧ snd s' = snd s ++ extra
    ∧ Forall (fun c => c = rmCall (m_hash m)) extra
    ∧ (m_Machine m = false → s' = s).
Proof.
  intros Hdone. revert s. induction ops as [|o ops IH]; intros s.
  - exists [], s, []. simpl. rewrite (right_id_L [] (++)). done.
  - destruct o as [arg|]; cbn [run].
    + rewrite (machine_Command_done m arg s Hdone).
      destruct (IH s) as (outs & s' & extra & Hrun & Houts & Hlog & Hrm & Hno).
      rewrite Hrun. exists (Returned (Fail errShutdown) :: outs), s', extra.
      split; [done|]. split; [|done].
      intros [|i] a; simpl; [done|apply Houts].
    + destruct (machine_Shutdown_done m s Hdone) as (e & s1 & Hsh & Heff).
      rewrite Hsh.
      destruct (IH s1) as (outs & s' & extra & Hrun & Houts & Hlog & Hrm & Hno).
      rewrite Hrun.
      destruct (m_Machine m) eqn:HM.
      * exists (Stopped e :: outs), s', (rmCall (m_hash m) :: extra).
        split; [done|]. split; [|split; [|split]].
        -- intros [|i] a; simpl; [done|apply Houts].
        -- rewrite Hlog, Heff, <- (assoc_L (++)). done.
        -- by constructor.
        -- done.
      * subst s1. exists (Stopped e :: outs), s', extra.
        split; [done|]. split; [|done].
        intros [|i] a; simpl; [done|apply Houts].
Qed.

(** What a machine whose flag is set adds to the log: one removal for each
    [Shutdown] when it has run a command, nothing when it has not. *)
Lemma run_done_log ops m (s : sys X) :
  m_done m = true →
  snd (snd (run X ops m s))
  = snd s ++ if m_Machine m
             then replicate (shutdowns ops) (rmCall (m_hash m))
             else [].
Proof.
  intros Hdone. revert s. induction ops as [|o ops IH]; intros s.
  - simpl. destruct (m_Machine m); by rewrite (right_id_L [] (++)).
  - destruct o as [arg|]; cbn [run].
    + rewrite (machine_Command_done m arg s Hdone).
      specialize (IH s). destruct (run X ops m s) as [[outs m2] s2].
      exact IH.
    + destruct (machine_Shutdown_done m s Hdone) as (e & s1 & Hsh & Heff).
      rewrite Hsh. specialize (IH s1).
      destruct (run X ops m s1) as [[outs m2] s2]. cbn [snd] in IH |- *.
      rewrite IH. unfold shutdowns. cbn [List.filter isShutdown length].
      destruct (m_Machine m).
      * rewrite Heff, <- (assoc_L (++)). done.
      * by subst s1.
Qed.

(** X12. [Shutdown] is final. Whatever the machine went through before and
    whatever is asked of it after, every later [Command] returns
    [command.Fail(errShutdown)], the flag stays set, and the commands issued
    from the [Shutdown] on are exactly one removal of the container the
    machine knew then for each call of [Shutdown], the first included, and
    nothing else; a machine that never ran a command issues none and leaves
    the outside world as it is. *)
Theorem run_after_Shutdown (ops : list op) (m : machine) (s : sys X) :
  ∃ outs m' s' extra,
    run X (OpShutdown :: ops) m s = (outs, m', s')
    ∧ m_done m' = true
    ∧ (∀ i arg, ops !! i = Some (OpCommand arg) →
         outs !! S i = Some (Returned (Fail errShutdown)))
    ∧ snd s' = snd s ++ extra
    ∧ Forall (fun c => c = rmCall (m_hash m)) extra
    ∧ (m_Machine m = false → s' = s)
    ∧ extra = (if m_Machine m
               then replicate (shutdowns (OpShutdown :: ops))
                      (rmCall (m_hash m))
               else [])
    ∧ length outs = S (length ops).
Proof.
  cbn [run]. unfold machine_Shutdown. cbn [m_Machine m_hash].
  set (m1 := MkMachine (m_name m) (m_args m) (m_Machine m) (m_once m)
               (m_hash m) true).
  destruct (m_Machine m) eqn:HM; cbn [negb].
  - pose proof (doDo_log ["container"; "rm"; "-f"; m_hash m] s) as Hlog1.
    destruct (doDo X _ s) as [e s1]. cbn [snd] in Hlog1.
    destruct (run_done ops m1 s1 eq_refl)
      as (outs & s' & extra & Hrun & Houts & Hlog & Hrm & _).
    pose proof (run_done_log ops m1 s1 eq_refl) as Hcount.
    rewrite Hrun in Hcount. cbn [snd m_Machine m_hash m1] in Hcount.
    rewrite Hlog in Hcount. apply app_inv_head in Hcount.
    rewrite Hrun.
    exists (Stopped e :: outs), m1, s', (rmCall (m_hash m) :: extra).
    split; [done|]. split; [done|]. split; [exact Houts|].
    split; [|split; [|split; [done|split]]].
    + rewrite Hlog, Hlog1, <- (assoc_L (++)). done.
    + by constructor.
    + rewrite Hcount. reflexivity.
    + simpl. f_equal. eapply run_length. exact Hrun.
  - destruct (run_done ops m1 s eq_refl)
      as (outs & s' & extra & Hrun & Houts & Hlog & Hrm & Hno).
    pose proof (run_done_log ops m1 s eq_refl) as Hcount.
    rewrite Hrun in Hcount. cbn [snd m_Machine m_hash m1] in Hcount.
    rewrite Hlog in Hcount. apply app_inv_head in Hcount.
    rewrite Hrun. exists (Stopped None :: outs), m1, s', extra.
    split; [done|]. split; [done|]. split; [exact Houts|].
    split; [done|]. split; [done|]. split; [intros _; by apply Hno|].
    split; [done|]. simpl. f_equal. eapply run_length. exact Hrun.
Qed.
(** ** Building the image *)

(** X16. [buildContainer] tags the image with the hash of the absolute
    path and first asks the controller when that image was made. It builds
    when the image is missing (the inspection failed) or not younger than
    the Containerfile, and only then; an image younger than the file is kept
    and nothing is built. When the file cannot be examined, or the time of
    the image cannot be read, it returns an error and builds nothing; when
    the path cannot be made absolute it issues no command at all. *)
Theorem buildContainer_cache (rpath : string) (s : sys X) :
  let image := fst (fst (buildContainer X rpath s)) in
  let e := snd (fst (buildContainer X rpath s)) in
  let s' := snd (buildContainer X rpath s) in
  match filepath_Abs X rpath (fst s) with
  | inr a => image = EmptyString ∧ e ≠ None ∧ s' = s
  | inl path =>
      let tag := sha1_hex X path in
      let inspectArgs :=
        ["image"; "inspect"; "--format"; "{{.Created}}"; tag] in
      let buildArgs :=
        ["image"; "build"; "--file"; path; "--no-cache"; "--tag"; tag;
         filepath_Dir X path] in
      let out := fst (fst (command_Read X inspectArgs (fst s))) in
      let insperr := snd (fst (command_Read X inspectArgs (fst s))) in
      let w1 := snd (command_Read X inspectArgs (fst s)) in
      let kept := snd s' = snd s ++ [CallRead inspectArgs] in
      let built :=
        snd s' = snd s ++ [CallRead inspectArgs; CallExec buildArgs]
        ∧ (e = None ↔ fst (command_Exec X buildArgs w1) = None) in
      image = tag
      ∧ match os_Lstat X path w1 with
        | inr a => kept ∧ e ≠ None
        | inl mtime =>
            match insperr with
            | Some _ => built
            | None =>
                match time_Parse X (strings_TrimSpace X out) with
                | inr a => kept ∧ e ≠ None
                | inl ctime =>
                    if mtime <? ctime then kept ∧ e = None else built
                end
            end
        end
  end.
Proof.
  unfold buildContainer.
  destruct (filepath_Abs X rpath (fst s)) as [path|a]; [|done].
  cbv zeta. unfold doRead, doExec, getMtime.
  destruct (command_Read X _ (fst s)) as [[out insperr] w1].
  cbn [fst snd].
  destruct (command_Exec X _ w1) as [be w2].
  destruct (os_Lstat X path w1) as [mtime|a]; [|done].
  destruct insperr as [ie|].
  - cbn [fst snd]. split; [done|]. split; [by rewrite <- (assoc_L (++))|].
    by destruct be.
  - destruct (time_Parse X (strings_TrimSpace X out)) as [ctime|a]; [|done].
    destruct (mtime <? ctime); [done|].
    cbn [fst snd]. split; [done|]. split; [by rewrite <- (assoc_L (++))|].
    by destruct be.
Qed.

(** [buildContainer] never starts a container. *)
Lemma buildContainer_no_start (rpath : string) (s : sys X) :
  ∃ extra,
    snd (snd (buildContainer X rpath s)) = snd s ++ extra
    ∧ List.filter isStart extra = [].
Proof.
  unfold buildContainer.
  destruct (filepath_Abs X rpath (fst s)) as [path|a];
    [|exists []; by rewrite (right_id_L [] (++))].
  cbv zeta. unfold doRead, doExec, getMtime.
  destruct (command_Read X _ (fst s)) as [[out insperr] w1].
  cbn [fst snd].
  destruct (command_Exec X _ w1) as [be w2].
  destruct (os_Lstat X path w1) as [mtime|a]; [|by eexists [_]].
  destruct insperr as [ie|].
  - eexists [_; _]. cbn [fst snd]. by rewrite <- (assoc_L (++)).
  - destruct (time_Parse X (strings_TrimSpace X out)) as [ctime|a];
      [|by eexists [_]].
    destruct (mtime <? ctime); [by eexists [_]|].
    eexists [_; _]. cbn [fst snd]. by rewrite <- (assoc_L (++)).
Qed.

(** ** Starting the container *)

Lemma machine_doInit_starts m (s : sys X) :
  ∃ extra,
    snd (snd (machine_doInit X m s)) = snd s ++ extra
    ∧ (length (List.filter isStart extra) ≤ 1)%nat.
Proof.
  unfold machine_doInit.
  assert (Hb : ∃ name berr s1 extra,
    (if isPath (m_name m) then buildContainer X (m_name m) s
     else (m_name m, None, s)) = (name, berr, s1)
    ∧ snd s1 = snd s ++ extra ∧ List.filter isStart extra = []).
  { destruct (isPath (m_name m)).
    - destruct (buildContainer_no_start (m_name m) s) as (extra & Hlog & Hns).
      destruct (buildContainer X (m_name m) s) as [[name berr] s1].
      by exists name, berr, s1, extra.
    - exists (m_name m), None, s, []. by rewrite (right_id_L [] (++)). }
  destruct Hb as (name & berr & s1 & extra & -> & Hlog & Hns).
  destruct berr as [e|].
  - exists extra. cbn [snd]. rewrite Hns. split; [done|simpl; lia].
  - set (cmd := ["container"; "run"; "--rm"; "-d"; "-i"] ++ m_args m
                ++ [name; "cat"]).
    pose proof (doRead_log cmd s1) as Hlog2.
    destruct (doRead X cmd s1) as [[out e] s2]. cbn [snd] in Hlog2.
    exists (extra ++ [CallRead cmd]).
    assert (Hlen : (length (List.filter isStart (extra ++ [CallRead cmd]))
                    ≤ 1)%nat).
    { rewrite List.filter_app, length_app, Hns. simpl. lia. }
    destruct e; cbn [snd]; by rewrite Hlog2, Hlog, <- (assoc_L (++)).
Qed.

Lemma machine_Command_starts m arg (s : sys X) :
  ∃ extra,
    snd (snd (machine_Command X m arg s)) = snd s ++ extra
    ∧ (length (List.filter isStart extra)
       + budget (snd (fst (machine_Command X m arg s))) ≤ budget m)%nat.
Proof.
  unfold machine_Command, machine_init.
  destruct (m_done m) eqn:Hdone.
  - exists []. cbn [fst snd]. rewrite (right_id_L [] (++)). simpl. split; [done|lia].
  - destruct (m_once m) as [r|] eqn:Honce.
    + exists []. rewrite (right_id_L [] (++)).
      assert (Hb : budget m = 0%nat) by (unfold budget; by rewrite Honce).
      destruct r; cbn [fst snd]; rewrite ?Hdone; cbn [fst snd];
        rewrite Hb; simpl; split; done.
    + destruct (machine_doInit_starts m s) as (extra & Hlog & Hlen).
      destruct (machine_doInit X m s) as [[r m1] s1]. cbn [snd] in Hlog.
      exists extra.
      assert (Hb : budget m = 1%nat) by (unfold budget; by rewrite Honce).
      rewrite Hb.
      destruct r; cbn [fst snd m_done];
        [|destruct (m_done m1)]; cbn [fst snd]; unfold budget; simpl;
        split; try done; lia.
Qed.

Lemma machine_Shutdown_starts m (s : sys X) :
  ∃ extra,
    snd (snd (machine_Shutdown X m s)) = snd s ++ extra
    ∧ List.filter isStart extra = []
    ∧ budget (snd (fst (machine_Shutdown X m s))) = budget m.
Proof.
  unfold machine_Shutdown. cbn [m_Machine m_hash].
  destruct (m_Machine m); cbn [negb].
  - pose proof (doDo_log ["container"; "rm"; "-f"; m_hash m] s) as Hlog.
    destruct (doDo X _ s) as [e s1]. cbn [snd] in Hlog.
    by exists [CallDo ["container"; "rm"; "-f"; m_hash m]].
  - exists []. by rewrite (right_id_L [] (++)).
Qed.

Lemma run_starts ops m (s : sys X) :
  ∃ extra,
    snd (snd (run X ops m s)) = snd s ++ extra
    ∧ (length (List.filter isStart extra) ≤ budget m)%nat.
Proof.
  revert m s. induction ops as [|o ops IH]; intros m s.
  - exists []. simpl. rewrite (right_id_L [] (++)). split; [done|lia].
  - destruct o as [arg|]; cbn [run].
    + destruct (machine_Command_starts m arg s) as (ex1 & Hlog1 & Hlen1).
      destruct (machine_Command X m arg s) as [[b m1] s1].
      cbn [fst snd] in *.
      destruct (IH m1 s1) as (ex2 & Hlog2 & Hlen2).
      destruct (run X ops m1 s1) as [[outs m2] s2]. cbn [snd] in *.
      exists (ex1 ++ ex2). rewrite Hlog2, Hlog1, <- (assoc_L (++)).
      split; [done|]. rewrite List.filter_app, length_app. lia.
    + destruct (machine_Shutdown_starts m s) as (ex1 & Hlog1 & Hns & Hb).
      destruct (machine_Shutdown X m s) as [[e m1] s1].
      cbn [fst snd] in *.
      destruct (IH m1 s1) as (ex2 & Hlog2 & Hlen2).
      destruct (run X ops m1 s1) as [[outs m2] s2]. cbn [snd] in *.
      exists (ex1 ++ ex2). rewrite Hlog2, Hlog1, <- (assoc_L (++)).
      split; [done|]. rewrite List.filter_app, length_app, Hns. simpl. lia.
Qed.

(** X13. Whatever is asked of a machine, in whatever order, the command
    that starts its container is issued at most once; a machine whose first
    [Command] has run, with or without success, never issues it again. *)
Theorem run_starts_once (ops : list op) (m : machine) (s : sys X) :
  ∃ extra,
    snd (snd (run X ops m s)) = snd s ++ extra
    ∧ (length (List.filter isStart extra) ≤ 1)%nat
    ∧ (m_once m ≠ None → List.filter isStart extra = []).
Proof.
  destruct (run_starts ops m s) as (extra & Hlog & Hlen).
  exists extra. split; [done|]. unfold budget in Hlen. split.
  - destruct (m_once m); lia.
  - intros Honce. destruct (m_once m); [|done].
    destruct (List.filter isStart extra); [done|simpl in Hlen; lia].
Qed.

(** X14. The life of a machine made for an image: its first [Command]
    issues the one command [container run --rm -d -i], the arguments of the
    machine, the image, [cat]. When that command succeeds, [Command] returns
    a command of the container and a later [Shutdown] removes the container
    named by the trimmed output. When it fails, [Command] returns the error,
    wrapped, and a later [Shutdown] still issues a removal, of the empty
    name. *)
Theorem machine_lifecycle (name : string) (args arg : list string)
    (s : sys X) :
  isPath name = false →
  let startArgs :=
    ["container"; "run"; "--rm"; "-d"; "-i"] ++ args ++ [name; "cat"] in
  let out := fst (fst (command_Read X startArgs (fst s))) in
  let e := snd (fst (command_Read X startArgs (fst s))) in
  let w1 := snd (command_Read X startArgs (fst s)) in
  let hash :=
    match e with
    | None => strings_TrimSpace X out
    | Some _ => EmptyString
    end in
  let stop := command_Do X ["container"; "rm"; "-f"; hash] w1 in
  ∃ m',
    run X [OpCommand arg; OpShutdown] (Machine name args) s
    = ([Returned
          match e with
          | None => newCmd arg
          | Some e' =>
              Fail (ErrorfW ("failed to start container: " +:+ cError e') e')
          end;
        Stopped (fst stop)],
       m',
       (snd stop, snd s ++ [CallRead startArgs; rmCall hash]))
    ∧ m_done m' = true
    ∧ m_hash m' = hash.
Proof.
  intros Himage. cbv zeta. cbn [run].
  unfold machine_Command, machine_init, machine_doInit. simpl m_done.
  cbn [Machine m_once m_name m_args m_hash m_Machine].
  rewrite Himage. unfold doRead.
  destruct (command_Read X _ (fst s)) as [[out e] w1]. cbn [fst snd].
  destruct e as [e'|]; cbn [fst snd m_done];
    unfold machine_Shutdown; cbn [m_Machine m_hash negb]; unfold doDo;
    cbn [fst snd];
    destruct (command_Do X _ w1) as [re w2]; cbn [fst snd];
    eexists; (split; [rewrite <- (assoc_L (++)); reflexivity|]);
    split; reflexivity.
Qed.

(** X15. Once [m.once] holds a result, a [Command] contacts no machine and
    changes nothing, as long as the machine is not shut down: every call
    returns a command of the container when the start succeeded, and the
    error of the start, the same one, when it failed. A failed start is
    never tried again. *)
Theorem machine_settled (m : machine) (r : option cerror)
    (args : list (list string)) (s : sys X) :
  m_once m = Some r →
  m_done m = false →
  run X (map OpCommand args) m s
  = (map (fun a =>
            Returned match r with
                     | Some e => Fail e
                     | None => newCmd a
                     end) args,
     m, s).
Proof.
  intros Honce Hdone. induction args as [|a args IH]; [done|].
  cbn [map run]. unfold machine_Command, machine_init.
  rewrite Hdone, Honce. destruct r; rewrite ?Hdone, IH; reflexivity.
Qed.
End Ctr.

Lemma machine_lifecycle_witness :
  isPath "alpine" = false
  ∧ ∃ m',
      run testExternals [OpCommand ["true"]; OpShutdown]
        (Machine "alpine" []) (0%nat, [])
      = ([Returned (newCmd ["true"]); Stopped None], m',
         (2%nat,
          [CallRead ["container"; "run"; "--rm"; "-d"; "-i"; "alpine"; "cat"];
           rmCall "abc123"]))
      ∧ m_done m' = true
      ∧ m_hash m' = "abc123".
Proof.
  split; [reflexivity|].
  exact (machine_lifecycle testExternals "alpine" [] ["true"] (0%nat, [])
           eq_refl).
Defined.

Lemma machine_settled_witness :
  let m :=
    snd (fst (machine_Command testExternals (Machine "alpine" []) ["true"]
                (0%nat, []))) in
  m_once m = Some None
  ∧ m_done m = false
  ∧ run testExternals (map OpCommand [["ls"]; ["pwd"]]) m (1%nat, [])
    = ([Returned (newCmd ["ls"]); Returned (newCmd ["pwd"])], m, (1%nat, [])).
Proof.
  intros m. split; [reflexivity|]. split; [reflexivity|].
  exact (machine_settled testExternals m None [["ls"]; ["pwd"]] (1%nat, [])
           eq_refl eq_refl).
Defined.
